(** * LockN Listen: the PANNs audio tagging service (panns-api/api.py)

    A shallow embedding of the two request handlers of [panns-api/api.py],
    [classify_audio] and [detect_events], and of the list algorithms they
    run: the sliding-window loop, the candidate filter, the deduplication
    pass and the top-k selection; then of [get_model] with its global, and
    of [transcribe] and [transcribe_simple] of [whisper-api/api.py], which
    handle their temporary file the same way.

    Conventions of the embedding:
    - Python [int] is [Z]; a list index is [nat].
    - A Python or NumPy float is the rational [Q] it denotes, so comparisons
      are exact.  The float operations of [detect_events] (the two true
      divisions and the product of the window loop, the subtraction of the
      deduplication loop) round to the nearest double as Python does,
      through [round_double]; the probabilities of the model are taken as
      they come.
    - An exception is a value of [Exception]; a handler is a function from the
      world (the temporary directory) to an outcome and a new world.
    - [librosa.load], the PANNs model and [numpy.argsort] are not code of
      the service.  The decoder and the model are parameters of the
      handlers; [argsort] is one ascending sort of the indices, and nothing
      is stated about the order it leaves among equal probabilities. *)

From Stdlib Require Import List ZArith QArith Bool Lia Lqa.
From Stdlib Require Import Qpower Qround Qabs.
From Stdlib Require Import Strings.String Strings.Byte.
From Stdlib Require Import Sorting.Sorted Sorting.Permutation.
Import ListNotations.

Set Implicit Arguments.

Local Open Scope Z_scope.

(** * Part I: the program *)

(** ** Floats as rationals *)

(** [x > y] on floats, as a boolean. *)
Definition Qgtb (x y : Q) : bool := negb (Qle_bool x y).

(** ** Doubles

    A Python float is an IEEE double, kept here as the rational it denotes.
    [round_double] is rounding to the nearest double, ties to the even
    significand, with 53 significant bits.  The exponent is not bounded in
    it: no operation of the service rounds in the subnormal range (a
    difference of two doubles that falls there is exact), and the upper end
    of the range is looked at where it matters, in [true_divide], which
    raises there, and in [out_of_window], where the difference is an
    infinity. *)

(** [2 ** e] *)
Definition pow2 (e : Z) : Q := Qpower 2 e.

(** The exponent of a positive rational: [2^ilog2 x <= x < 2^(ilog2 x + 1)]. *)
Definition ilog2 (x : Q) : Z :=
  let g := Z.log2 (Qnum x) - Z.log2 (Zpos (Qden x)) in
  if Qle_bool (pow2 g) x then g else g - 1.

(** The nearest integer, a tie going to the even one. *)
Definition round_half_even (x : Q) : Z :=
  let f := Qfloor x in
  match Qcompare (x - inject_Z f) (1 # 2) with
  | Lt => f
  | Gt => f + 1
  | Eq => if Z.even f then f else f + 1
  end.

(** The nearest double of a positive rational: its significand, scaled into
    [2^52, 2^53), is rounded to an integer. *)
Definition round_positive (x : Q) : Q :=
  let e := ilog2 x - 52 in
  (inject_Z (round_half_even (x / pow2 e)) * pow2 e)%Q.

Definition round_double (x : Q) : Q :=
  let x := Qred x in
  match Qcompare x 0 with
  | Eq => 0%Q
  | Gt => round_positive x
  | Lt => (- round_positive (- x))%Q
  end.

(** [int(x)] on a float: truncation towards zero. *)
Definition int_of_float (x : Q) : Z :=
  if Qle_bool 0 x then Qfloor x else Qceiling x.

(** ** Exceptions *)

Inductive ErrorCodes :=
| VALIDATION_MISSING_FIELD
| LISTEN_CLASSIFICATION_FAILED
| LISTEN_INVALID_AUDIO_FORMAT
| LISTEN_MODEL_NOT_LOADED.

(** What a handler can raise: the service's own exception, with its code and
    HTTP status, or any other Python exception (ValueError, IndexError, a
    fault of the decoder or of the model). *)
Inductive Exception :=
| LockNHTTPException (code : ErrorCodes) (status_code : Z)
| OtherException.

Inductive result (A : Type) :=
| Ok (a : A)
| Raised (e : Exception).

Arguments Ok {A} a.
Arguments Raised {A} e.

Definition bind {A B} (r : result A) (k : A -> result B) : result B :=
  match r with
  | Ok a => k a
  | Raised e => Raised e
  end.

Notation "x <- r ;; k" := (bind r (fun x => k))
  (at level 61, r at next level, right associativity).

(** [try: r  except Exception: raise LockNHTTPException(code, status)] *)
Definition except_as {A} (r : result A) (code : ErrorCodes) (status : Z)
  : result A :=
  match r with
  | Ok a => Ok a
  | Raised _ => Raised (LockNHTTPException code status)
  end.

(** The two [except] clauses that close both handlers:
    [except LockNHTTPException: raise] and
    [except Exception: raise LockNHTTPException(LISTEN_CLASSIFICATION_FAILED, 502)]. *)
Definition except_clauses {A} (r : result A) : result A :=
  match r with
  | Ok a => Ok a
  | Raised (LockNHTTPException c s) => Raised (LockNHTTPException c s)
  | Raised OtherException =>
      Raised (LockNHTTPException LISTEN_CLASSIFICATION_FAILED 502)
  end.

(** ** Python sequences *)

(** A slice bound [k] of a sequence of length [n], as Python normalises it. *)
Definition slice_bound (n k : Z) : Z :=
  if k <? 0 then Z.max (k + n) 0 else Z.min k n.

(** [a[i:j]] *)
Definition slice {A} (a : list A) (i j : Z) : list A :=
  let n := Z.of_nat (List.length a) in
  let i' := slice_bound n i in
  let j' := slice_bound n j in
  firstn (Z.to_nat (j' - i')) (skipn (Z.to_nat i') a).

(** [a[i:]] *)
Definition slice_from {A} (a : list A) (i : Z) : list A :=
  skipn (Z.to_nat (slice_bound (Z.of_nat (List.length a)) i)) a.

(** [a[i]] for an index that is not negative; IndexError out of range. *)
Definition getitem {A} (a : list A) (i : nat) : result A :=
  match nth_error a i with
  | Some x => Ok x
  | None => Raised OtherException
  end.

(** [len(range(start, stop, step))] for a step that is not zero. *)
Definition range_len (start stop step : Z) : Z :=
  if 0 <? step
  then (if start <? stop then (stop - start - 1) / step + 1 else 0)
  else (if stop <? start then (start - stop - 1) / (- step) + 1 else 0).

(** [range(start, stop, step)]; ValueError when the step is zero. *)
Definition range (start stop step : Z) : result (list Z) :=
  if step =? 0 then Raised OtherException
  else Ok (map (fun k => start + Z.of_nat k * step)
               (seq 0 (Z.to_nat (range_len start stop step)))).

(** [a / b] on two ints: the nearest double of the quotient; ZeroDivisionError
    for a zero divisor and OverflowError when the result is beyond the
    doubles, that is when it rounds to [2^1024] or more. *)
Definition true_divide (a b : Z) : result Q :=
  if b =? 0 then Raised OtherException
  else
    let q := round_double (inject_Z a / inject_Z b) in
    if Qle_bool (pow2 1024) (Qabs q) then Raised OtherException else Ok q.

(** Run [f] on every element in order, stopping at the first exception. *)
Fixpoint mapM {A B} (f : A -> result B) (l : list A) : result (list B) :=
  match l with
  | [] => Ok []
  | x :: l' => y <- f x ;; ys <- mapM f l' ;; Ok (y :: ys)
  end.

(** ** Response models *)

Record TagResult := mkTagResult {
  label : string;
  tag_confidence : Q
}.

Record ClassifyResponse := mkClassifyResponse {
  tags : list TagResult;
  classify_duration_seconds : Q
}.

Record EventDetection := mkEventDetection {
  event : string;
  timestamp_ms : Q;
  confidence : Q
}.

Record DetectResponse := mkDetectResponse {
  events : list EventDetection;
  detect_duration_seconds : Q
}.

(** ** The table of relevant sounds *)

Definition SPORTS_SOUNDS : list (string * string) :=
  [ ("Ping-pong ball", "bounce");
    ("Table tennis", "game");
    ("Bouncing", "bounce");
    ("Knock", "hit");
    ("Tap", "hit");
    ("Clapping", "point");
    ("Cheering", "point");
    ("Speech", "voice");
    ("Silence", "silence") ]%string.

(** [d.get(key)] on a dict kept as an association list. *)
Fixpoint dict_get (d : list (string * string)) (key : string) : option string :=
  match d with
  | [] => None
  | (k, v) :: d' => if String.eqb key k then Some v else dict_get d' key
  end.

(** ** Top-k selection (classify_audio, "Get top predictions") *)

(** [probs[i]] for an index that [argsort] returned. *)
Definition prob_at (probs : list Q) (i : nat) : Q := nth i probs 0%Q.

(** Insert index [i] before the first index whose probability is not
    smaller: equal probabilities keep the order in which they are inserted. *)
Fixpoint insert_index (probs : list Q) (i : nat) (l : list nat) : list nat :=
  match l with
  | [] => [i]
  | j :: l' =>
      if Qle_bool (prob_at probs i) (prob_at probs j)
      then i :: l
      else j :: insert_index probs i l'
  end.

(** [np.argsort(probs)]: the indices [0 .. len(probs)-1] in ascending
    probability order.  NumPy is not code of the service, and the handler
    calls it with its default kind, which is not stable: the order it leaves
    among equal probabilities is decided inside NumPy and differs between
    its builds.  This definition is one sort that meets the contract, by
    insertion; the order it gives to equal probabilities is its own, and no
    property recorded for the service is about that order. *)
Definition argsort (probs : list Q) : list nat :=
  fold_right (insert_index probs) [] (seq 0 (List.length probs)).

(** [np.argsort(probs)[-top_k:][::-1]] *)
Definition top_indices (probs : list Q) (top_k : Z) : list nat :=
  rev (slice_from (argsort probs) (- top_k)).

(** The floor of the tag list, [0.05]. *)
Definition tag_floor : Q := 5 # 100.

(** [[i for i in top_indices if probs[i] > 0.05]] *)
Definition selected_indices (probs : list Q) (top_k : Z) : list nat :=
  filter (fun i => Qgtb (prob_at probs i) tag_floor) (top_indices probs top_k).

(** The list comprehension that builds [tags]. *)
Definition classify_tags (labels : list string) (probs : list Q) (top_k : Z)
  : result (list TagResult) :=
  mapM (fun i => l <- getitem labels i ;; Ok (mkTagResult l (prob_at probs i)))
       (selected_indices probs top_k).

(** ** Sliding windows (detect_events, "Sliding window detection") *)

(** [librosa.load(..., sr=32000)] resamples, so [sr] is always 32000. *)
Definition sr : Z := 32000.

(** [int(window_ms * sr / 1000)]: the product is an exact int, the division
    gives the nearest double and [int] truncates it towards zero.  This is
    the value when the division does not overflow; [window_starts] raises
    when it does. *)
Definition window_samples (window_ms : Z) : Z :=
  int_of_float (round_double (inject_Z (window_ms * sr) / inject_Z 1000)).

(** [window_samples // 2]: floor division. *)
Definition hop_samples (window_ms : Z) : Z := window_samples window_ms / 2.

(** Lines 312 to 317 for a clip of [n] samples: the division of
    [window_samples], which can raise OverflowError, then
    [range(0, len(audio) - window_samples, hop_samples)]. *)
Definition window_starts (n : Z) (window_ms : Z) : result (list Z) :=
  quotient <- true_divide (window_ms * sr) 1000 ;;
  range 0 (n - window_samples window_ms) (hop_samples window_ms).

(** [(start / sr) * 1000]: the division rounds, and the product rounds
    again.  A start is below the length of a list, far from where either
    could leave the range of the doubles. *)
Definition window_timestamp (start : Z) : Q :=
  round_double (round_double (inject_Z start / inject_Z sr) * 1000).

(** The event threshold, [0.3]. *)
Definition event_threshold : Q := 3 # 10.

(** [for i, prob in enumerate(probs)], from index [i] on. *)
Fixpoint window_events (labels : list string) (ts : Q) (i : nat)
    (probs : list Q) (detected_events : list EventDetection)
  : result (list EventDetection) :=
  match probs with
  | [] => Ok detected_events
  | prob :: rest =>
      l <- getitem labels i ;;
      window_events labels ts (S i) rest
        (match dict_get SPORTS_SOUNDS l with
         | Some ev =>
             if Qgtb prob event_threshold
             then detected_events ++ [mkEventDetection ev ts prob]
             else detected_events
         | None => detected_events
         end)
  end.

(** ** Deduplication (detect_events, "Deduplicate nearby events") *)

(** [deduped[-1]], when [deduped] is not empty. *)
Definition last_event (deduped : list EventDetection) : option EventDetection :=
  match rev deduped with
  | [] => None
  | e :: _ => Some e
  end.

(** [deduped[-1] = e] *)
Definition set_last (deduped : list EventDetection) (e : EventDetection)
  : list EventDetection :=
  removelast deduped ++ [e].

(** [e.timestamp_ms - l.timestamp_ms > window_ms].  The two time stamps
    are doubles and so is their difference: it is rounded, and from [2^1024]
    on it is an infinity, above or below every [int].  A float is compared
    with an [int] by value. *)
Definition out_of_window (window_ms : Z) (l e : EventDetection) : bool :=
  let d := round_double (timestamp_ms e - timestamp_ms l) in
  if Qle_bool (pow2 1024) d then true
  else if Qle_bool d (- pow2 1024) then false
  else Qgtb d (inject_Z window_ms).

(** One iteration of [for event in detected_events]. *)
Definition dedup_step (window_ms : Z) (deduped : list EventDetection)
    (e : EventDetection) : list EventDetection :=
  match last_event deduped with
  | None => deduped ++ [e]
  | Some l =>
      if out_of_window window_ms l e
      then deduped ++ [e]
      else if Qgtb (confidence e) (confidence l)
           then set_last deduped e
           else deduped
  end.

Definition dedup (window_ms : Z) (detected_events : list EventDetection)
  : list EventDetection :=
  fold_left (dedup_step window_ms) detected_events [].

(** ** The temporary directory *)

(** A temporary file is a path and its content. *)
Definition World := list (nat * list byte).

(** A name no file of the directory has. *)
Definition fresh_path (w : World) : nat := S (fold_right Nat.max 0%nat (map fst w)).

(** [tempfile.NamedTemporaryFile(delete=False)]: a new, empty file that
    outlives the [with] block. *)
Definition NamedTemporaryFile (w : World) : nat * World :=
  (fresh_path w, (fresh_path w, []) :: w).

(** [tmp.write(content)] *)
Fixpoint write (p : nat) (content : list byte) (w : World) : World :=
  match w with
  | [] => []
  | (q, c) :: w' =>
      if Nat.eqb q p then (q, c ++ content) :: w' else (q, c) :: write p content w'
  end.

(** [os.path.exists(p)] *)
Definition exists_path (p : nat) (w : World) : bool :=
  existsb (fun f => Nat.eqb (fst f) p) w.

(** [os.unlink(p)] *)
Definition unlink (p : nat) (w : World) : World :=
  filter (fun f => negb (Nat.eqb (fst f) p)) w.

(** The bytes at [p], if the file is there. *)
Fixpoint read_path (p : nat) (w : World) : option (list byte) :=
  match w with
  | [] => None
  | (q, c) :: w' => if Nat.eqb q p then Some c else read_path p w'
  end.

(** The [finally] clause of both handlers. *)
Definition finally_unlink (tmp_path : nat) (w : World) : World :=
  if exists_path tmp_path w then unlink tmp_path w else w.

(** ** The request handlers *)

Record UploadFile := mkUploadFile {
  filename : option string;
  content : list byte
}.

(** [not file.filename]: the name is missing or empty. *)
Definition no_filename (file : UploadFile) : bool :=
  match filename file with
  | None => true
  | Some s => String.eqb s ""
  end.

(** The loaded PANNs model: [model.inference] on one clip, giving the
    clipwise output of that clip or raising, and [model.labels]. *)
Record AudioTagging := mkAudioTagging {
  inference : list Q -> result (list Q);
  labels : list string
}.

Section Handlers.

(** The decoder behind [librosa.load]: the samples of a file content, or
    nothing when it cannot be decoded. *)
Variable decode : list byte -> option (list Q).

(** The model that [get_model] loads, or nothing when loading fails. *)
Variable loaded : option AudioTagging.

Definition get_model : result AudioTagging :=
  match loaded with
  | Some m => Ok m
  | None => Raised (LockNHTTPException LISTEN_MODEL_NOT_LOADED 503)
  end.

(** [librosa.load(tmp_path, sr=32000, mono=True)] *)
Definition librosa_load (tmp_path : nat) (w : World) : result (list Q) :=
  match read_path tmp_path w with
  | Some c =>
      match decode c with
      | Some audio => Ok audio
      | None => Raised OtherException
      end
  | None => Raised OtherException
  end.

(** [len(audio) / sr]: the nearest double of the quotient. *)
Definition duration_of (audio : list Q) : Q :=
  round_double (inject_Z (Z.of_nat (List.length audio)) / inject_Z sr).

(** The [try] block of [classify_audio]. *)
Definition classify_body (tmp_path : nat) (top_k : Z) (w : World)
  : result ClassifyResponse :=
  audio <- except_as (librosa_load tmp_path w) LISTEN_INVALID_AUDIO_FORMAT 400 ;;
  model <- get_model ;;
  probs <- inference model audio ;;
  tags <- classify_tags (labels model) probs top_k ;;
  Ok (mkClassifyResponse tags (duration_of audio)).

Definition classify_audio (file : UploadFile) (top_k : Z) (w : World)
  : result ClassifyResponse * World :=
  if no_filename file
  then (Raised (LockNHTTPException VALIDATION_MISSING_FIELD 400), w)
  else
    let (tmp_path, w1) := NamedTemporaryFile w in
    if Nat.eqb (List.length (content file)) 0
    then (Raised (LockNHTTPException LISTEN_INVALID_AUDIO_FORMAT 400), w1)
    else
      let w2 := write tmp_path (content file) w1 in
      (except_clauses (classify_body tmp_path top_k w2),
       finally_unlink tmp_path w2).

(** The first loop of [detect_events]: one inference per window start. *)
Fixpoint scan_windows (model : AudioTagging) (audio : list Q)
    (window_ms : Z) (starts : list Z) (detected_events : list EventDetection)
  : result (list EventDetection) :=
  match starts with
  | [] => Ok detected_events
  | start :: rest =>
      probs <- inference model
                 (slice audio start (start + window_samples window_ms)) ;;
      detected <- window_events (labels model) (window_timestamp start)
                    0 probs detected_events ;;
      scan_windows model audio window_ms rest detected
  end.

(** The [try] block of [detect_events]. *)
Definition detect_body (tmp_path : nat) (events : option (list string))
    (window_ms : Z) (w : World) : result DetectResponse :=
  audio <- except_as (librosa_load tmp_path w) LISTEN_INVALID_AUDIO_FORMAT 400 ;;
  model <- get_model ;;
  starts <- window_starts (Z.of_nat (List.length audio)) window_ms ;;
  detected_events <- scan_windows model audio window_ms starts [] ;;
  Ok (mkDetectResponse (dedup window_ms detected_events) (duration_of audio)).

Definition detect_events (file : UploadFile)
    (events : option (list string)) (window_ms : Z) (w : World)
  : result DetectResponse * World :=
  if no_filename file
  then (Raised (LockNHTTPException VALIDATION_MISSING_FIELD 400), w)
  else
    let (tmp_path, w1) := NamedTemporaryFile w in
    if Nat.eqb (List.length (content file)) 0
    then (Raised (LockNHTTPException LISTEN_INVALID_AUDIO_FORMAT 400), w1)
    else
      let w2 := write tmp_path (content file) w1 in
      (except_clauses (detect_body tmp_path events window_ms w2),
       finally_unlink tmp_path w2).

End Handlers.

(** ** The vocabulary of the properties *)

(** The window count as the specification words it: [floor((N - W) / H) + 1]
    when [N >= W], else [0]. *)
Definition spec_window_count (n w h : Z) : Z :=
  if w <=? n then (n - w) / h + 1 else 0.

(** The candidates arrive in non-decreasing timestamp order. *)
Definition time_ordered (xs : list EventDetection) : Prop :=
  StronglySorted (fun a b => (timestamp_ms a <= timestamp_ms b)%Q) xs.

(** Every two neighbours are strictly more than [window_ms] apart, their
    time stamps taken as the real numbers they are. *)
Definition separated (window_ms : Z) (xs : list EventDetection) : Prop :=
  forall l1 e1 e2 l2, xs = l1 ++ e1 :: e2 :: l2 ->
    (inject_Z window_ms < timestamp_ms e2 - timestamp_ms e1)%Q.

(** Every two neighbours are strictly more than [window_ms] apart as the
    service subtracts and compares them: [e2.timestamp_ms - e1.timestamp_ms
    > window_ms] is [True]. *)
Definition spaced (window_ms : Z) (xs : list EventDetection) : Prop :=
  forall l1 e1 e2 l2, xs = l1 ++ e1 :: e2 :: l2 ->
    out_of_window window_ms e1 e2 = true.

(** Give every event a new name, leaving time and confidence alone. *)
Definition rename (f : EventDetection -> string) (e : EventDetection)
  : EventDetection :=
  mkEventDetection (f e) (timestamp_ms e) (confidence e).

(** The number of entries of [probs] strictly above the floor. *)
Definition count_above_floor (probs : list Q) : nat :=
  List.length (filter (fun p => Qgtb p tag_floor) probs).

(** The tags come in descending confidence order. *)
Definition descending (ts : list TagResult) : Prop :=
  StronglySorted (fun a b => (tag_confidence b <= tag_confidence a)%Q) ts.

(** The order of the insertion sort above: ascending probability, and
    ascending index among equal probabilities. *)
Definition index_order (probs : list Q) (i j : nat) : Prop :=
  (prob_at probs i < prob_at probs j)%Q \/
  ((prob_at probs i == prob_at probs j)%Q /\ (i < j)%nat).

(** Sample candidates: a bounce at 0 ms, a point at 300 ms and at 600 ms. *)
Definition bounce_0 : EventDetection := mkEventDetection "bounce" 0 (4 # 10).
Definition point_300 : EventDetection := mkEventDetection "point" 300 (6 # 10).
Definition point_600 : EventDetection := mkEventDetection "point" 600 (6 # 10).

(** Two hits as a window of 1001 ms stamps them, in its second and its
    fourth window (starts 16016 and 48048): at 500.49999999999994 ms and at
    1501.5 ms. *)
Definition hit_16016 : EventDetection :=
  mkEventDetection "hit" (window_timestamp 16016) (6 # 10).
Definition hit_48048 : EventDetection :=
  mkEventDetection "hit" (window_timestamp 48048) (4 # 10).

(** Two hits at 1 ms and at [2^53 + 4] ms. *)
Definition hit_1 : EventDetection := mkEventDetection "hit" 1 (6 # 10).
Definition hit_2p53 : EventDetection :=
  mkEventDetection "hit" (inject_Z (2 ^ 53 + 4)) (4 # 10).

(** A sample request: a model over two labels that hears speech in every
    clip, a decoder that gives 64 samples of silence, one that gives up, and
    an upload of one byte. *)
Definition sample_model : AudioTagging :=
  mkAudioTagging (fun _ => Ok [6 # 10; 1 # 10]%Q) ["Speech"; "Music"]%string.
Definition sample_decode (c : list byte) : option (list Q) :=
  Some (repeat 0%Q 64).
Definition failing_decode (c : list byte) : option (list Q) := None.
Definition sample_file : UploadFile :=
  mkUploadFile (Some "clip.wav"%string) [x00].

(** A model that fails on every clip, and an upload without a name. *)
Definition failing_model : AudioTagging :=
  mkAudioTagging (fun _ => Raised OtherException) ["Speech"; "Music"]%string.
Definition nameless_file : UploadFile := mkUploadFile None [x00].

(** A decoder that gives the 64 samples 0, 1, ..., 63, and a model that hears
    speech in a clip that starts with silence and fails on any other. *)
Definition ramp_decode (c : list byte) : option (list Q) :=
  Some (map (fun k => inject_Z (Z.of_nat k)) (seq 0 64)).
Definition fussy_model : AudioTagging :=
  mkAudioTagging
    (fun a => match a with
              | x :: _ => if Qle_bool x 0 then Ok [6 # 10; 1 # 10]%Q
                          else Raised OtherException
              | [] => Raised OtherException
              end)
    ["Speech"; "Music"]%string.

(** The four errors the handlers raise on purpose, each with its status. *)
Definition service_error (e : Exception) : Prop :=
  e = LockNHTTPException VALIDATION_MISSING_FIELD 400 \/
  e = LockNHTTPException LISTEN_INVALID_AUDIO_FORMAT 400 \/
  e = LockNHTTPException LISTEN_MODEL_NOT_LOADED 503 \/
  e = LockNHTTPException LISTEN_CLASSIFICATION_FAILED 502.

(** An outcome is a response or one of the four service errors. *)
Definition service_outcome {A} (r : result A) : Prop :=
  match r with
  | Ok _ => True
  | Raised e => service_error e
  end.

(** A model whose [inference] fails only with exceptions of its own, never
    with the service's exception. *)
Definition plain_failures (m : AudioTagging) : Prop :=
  forall a e, inference m a = Raised e -> e = OtherException.

(** The candidates one window contributes: in vocabulary order, one for each
    label of the table whose probability is strictly above the threshold. *)
Definition window_candidates (ts : Q) (labelled : list (string * Q))
  : list EventDetection :=
  flat_map (fun lp =>
              match dict_get SPORTS_SOUNDS (fst lp) with
              | Some ev =>
                  if Qgtb (snd lp) event_threshold
                  then [mkEventDetection ev ts (snd lp)]
                  else []
              | None => []
              end) labelled.

(** ** The model singleton of the tagging service *)

(** [get_model] with its global [_model] written out: the state is the
    global, [load] is what [AudioTagging(...)] would give at this call, or
    nothing when it raises.  The handlers above see one request, where only
    the outcome matters; this is the same function across requests. *)
Definition get_model_global (load : option AudioTagging)
    (_model : option AudioTagging)
  : result AudioTagging * option AudioTagging :=
  match _model with
  | Some m => (Ok m, Some m)
  | None =>
      match load with
      | Some m => (Ok m, Some m)
      | None => (Raised (LockNHTTPException LISTEN_MODEL_NOT_LOADED 503), None)
      end
  end.

(** * The transcription service (whisper-api/api.py) *)

Module Whisper.

Inductive ErrorCodes :=
| VALIDATION_MISSING_FIELD
| LISTEN_TRANSCRIPTION_FAILED
| LISTEN_INVALID_AUDIO_FORMAT
| LISTEN_MODEL_NOT_LOADED.

(** How a handler ends: it returns, or it raises the service's exception.
    Every other exception is caught by the handler itself. *)
Inductive outcome (A : Type) :=
| Returned (a : A)
| LockNHTTPException (code : ErrorCodes) (status_code : Z).

Arguments Returned {A} a.
Arguments LockNHTTPException {A} code status_code.

(** A segment as faster-whisper yields it. *)
Record Segment := mkSegment {
  seg_id : Z;
  seg_start : Q;
  seg_end : Q;
  seg_text : string;
  seg_avg_logprob : Q
}.

(** The dict the handler makes of a segment. *)
Record SegmentDict := mkSegmentDict {
  d_id : Z;
  d_start : Q;
  d_end : Q;
  d_text : string;
  d_confidence : Q
}.

Record TranscriptionResponse := mkTranscriptionResponse {
  text : string;
  language : string;
  duration : Q;
  segments : list SegmentDict
}.

(** The handler returns a plain string or the response model. *)
Inductive Response :=
| PlainText (s : string)
| Json (r : TranscriptionResponse).

(** A form parameter: a string, [None], or, when the handler is called as a
    plain function, the [Form(...)] default object, which equals no string. *)
Inductive FormValue :=
| FormStr (s : string)
| FormNone
| FormDefault.

(** [v == s] *)
Definition form_eqb (v : FormValue) (s : string) : bool :=
  match v with
  | FormStr t => String.eqb t s
  | _ => false
  end.

(** The loaded model: [model.transcribe] on the bytes of the file, with the
    language and the [word_timestamps] flag, read to the end; nothing when
    the call or the iteration raises. *)
Record WhisperModel := mkWhisperModel {
  transcribe_file :
    list byte -> FormValue -> bool -> option (list Segment * string)
}.

Section Transcribe.

(** [str.strip] *)
Variable strip : string -> string.

(** The global [model]. *)
Variable model : option WhisperModel.

(** The two readings of [time.time()]. *)
Variable start_time end_time : Q.

(** [for segment in segments], with the two lists it appends to. *)
Fixpoint collect (segs : list Segment) (segment_list : list SegmentDict)
    (full_text : list string) : list SegmentDict * list string :=
  match segs with
  | [] => (segment_list, full_text)
  | segment :: rest =>
      collect rest
        (segment_list ++
           [mkSegmentDict (seg_id segment) (seg_start segment)
              (seg_end segment) (strip (seg_text segment))
              (seg_avg_logprob segment)])
        (full_text ++ [strip (seg_text segment)])
  end.

(** The [try] block of [transcribe]; nothing when it raises. *)
Definition transcribe_body (m : WhisperModel) (tmp_path : nat)
    (language response_format timestamp_granularities : FormValue)
    (w : World) : option Response :=
  match read_path tmp_path w with
  | None => None
  | Some bytes =>
      match transcribe_file m bytes language
              (form_eqb timestamp_granularities "word") with
      | None => None
      | Some (segs, info_language) =>
          let (segment_list, full_text) := collect segs [] [] in
          let duration := (end_time - start_time)%Q in
          if form_eqb response_format "text"
          then Some (PlainText (String.concat " " full_text))
          else Some (Json (mkTranscriptionResponse
                             (String.concat " " full_text) info_language
                             duration segment_list))
      end
  end.

Definition transcribe (file : UploadFile)
    (language response_format timestamp_granularities : FormValue)
    (w : World) : outcome Response * World :=
  match model with
  | None => (LockNHTTPException LISTEN_MODEL_NOT_LOADED 503, w)
  | Some m =>
      if no_filename file
      then (LockNHTTPException VALIDATION_MISSING_FIELD 400, w)
      else
        let (tmp_path, w1) := NamedTemporaryFile w in
        if Nat.eqb (List.length (content file)) 0
        then (LockNHTTPException LISTEN_INVALID_AUDIO_FORMAT 400, w1)
        else
          let w2 := write tmp_path (content file) w1 in
          (match transcribe_body m tmp_path language response_format
                   timestamp_granularities w2 with
           | Some r => Returned r
           | None => LockNHTTPException LISTEN_TRANSCRIPTION_FAILED 502
           end,
           finally_unlink tmp_path w2)
  end.

(** [transcribe(file=file, language=language)]: the other two parameters
    are the [Form] defaults themselves. *)
Definition transcribe_simple (file : UploadFile) (language : FormValue)
    (w : World) : outcome Response * World :=
  transcribe file language FormDefault FormDefault w.

End Transcribe.

(** A model that hears two segments in any file, and one that fails. *)
Definition two_segments : WhisperModel :=
  mkWhisperModel (fun _ _ _ =>
    Some ([mkSegment 0 0 1 " hello " (-1 # 10); mkSegment 1 1 2 "world " (-2 # 10)],
          "en"%string)).
Definition broken : WhisperModel := mkWhisperModel (fun _ _ _ => None).

End Whisper.

(** * Part II: the properties *)

(** ** Comparisons on floats *)

Lemma Qgtb_true (x y : Q) : Qgtb x y = true <-> (y < x)%Q.
Proof.
  unfold Qgtb. rewrite negb_true_iff. split; intro H.
  - apply Qnot_le_lt. intro L. apply Qle_bool_iff in L. congruence.
  - destruct (Qle_bool x y) eqn:E; [|reflexivity].
    apply Qle_bool_iff in E. exfalso. exact (Qlt_not_le _ _ H E).
Qed.

Lemma Qgtb_false (x y : Q) : Qgtb x y = false <-> (x <= y)%Q.
Proof.
  unfold Qgtb. rewrite negb_false_iff. apply Qle_bool_iff.
Qed.

(** ** Doubles *)

Lemma pow2_pos (e : Z) : (0 < pow2 e)%Q.
Proof. apply Qpower_0_lt. reflexivity. Qed.

Lemma pow2_plus (a b : Z) : (pow2 (a + b) == pow2 a * pow2 b)%Q.
Proof. apply Qpower_plus. discriminate. Qed.

Lemma pow2_le (a b : Z) : a <= b -> (pow2 a <= pow2 b)%Q.
Proof. intro H. apply Qpower_le_compat_l; [exact H|discriminate]. Qed.

Lemma pow2_lt (a b : Z) : a < b -> (pow2 a < pow2 b)%Q.
Proof. intro H. apply Qpower_lt_compat_l; [exact H|reflexivity]. Qed.

Lemma pow2_Z (n : Z) : 0 <= n -> (pow2 n == inject_Z (2 ^ n))%Q.
Proof. intro H. unfold pow2. now rewrite Zpower_Qpower. Qed.

Lemma Qle_bool_false (x y : Q) : Qle_bool x y = false -> (y < x)%Q.
Proof.
  intro H. apply Qnot_le_lt. intro L. apply Qle_bool_iff in L. congruence.
Qed.

(** [Z.log2] brackets a positive integer between two powers of two. *)
Lemma log2_bracket (n : Z) :
  0 < n -> (pow2 (Z.log2 n) <= inject_Z n < pow2 (Z.log2 n + 1))%Q.
Proof.
  intro Hn. destruct (Z.log2_spec n Hn) as [L U].
  pose proof (Z.log2_nonneg n) as N.
  rewrite !pow2_Z by lia. rewrite <- Zle_Qle, <- Zlt_Qlt.
  split; [exact L|]. now rewrite <- Z.add_1_r in U.
Qed.

Lemma ilog2_spec (x : Q) :
  (0 < x)%Q -> (pow2 (ilog2 x) <= x < pow2 (ilog2 x + 1))%Q.
Proof.
  intro Hx. unfold ilog2.
  set (a := Z.log2 (Qnum x)). set (b := Z.log2 (Zpos (Qden x))).
  assert (Hn : 0 < Qnum x).
  { destruct x as [n d]. unfold Qlt in Hx. simpl in *. lia. }
  destruct (log2_bracket Hn) as [La Ua]. fold a in La, Ua.
  destruct (log2_bracket (Pos2Z.is_pos (Qden x))) as [Lb Ub]. fold b in Lb, Ub.
  assert (E : (x * inject_Z (Zpos (Qden x)) == inject_Z (Qnum x))%Q).
  { destruct x as [n d]. unfold Qeq. simpl. lia. }
  set (N := inject_Z (Qnum x)) in *. set (D := inject_Z (Zpos (Qden x))) in *.
  pose proof (pow2_pos b) as Pb. pose proof (pow2_pos (a - b)) as Pg.
  assert (U : (x < pow2 (a - b + 1))%Q).
  { apply (Qmult_lt_r _ _ (pow2 b) Pb).
    rewrite <- pow2_plus. replace (a - b + 1 + b) with (a + 1) by lia.
    apply Qle_lt_trans with (x * D)%Q; [|rewrite E; exact Ua].
    apply Qmult_le_l; [exact Hx|exact Lb]. }
  assert (L : (pow2 (a - b - 1) < x)%Q).
  { pose proof (pow2_pos (b + 1)) as Pb1.
    apply (Qmult_lt_r _ _ (pow2 (b + 1)) Pb1).
    rewrite <- pow2_plus. replace (a - b - 1 + (b + 1)) with a by lia.
    apply Qle_lt_trans with (x * D)%Q; [rewrite E; exact La|].
    apply Qmult_lt_l; [exact Hx|exact Ub]. }
  destruct (Qle_bool (pow2 (a - b)) x) eqn:B.
  - apply Qle_bool_iff in B. split; [exact B|exact U].
  - apply Qle_bool_false in B.
    replace (a - b - 1 + 1) with (a - b) by lia.
    split; [apply Qlt_le_weak; exact L|exact B].
Qed.

Lemma ilog2_le (x y : Q) : (0 < x)%Q -> (x <= y)%Q -> ilog2 x <= ilog2 y.
Proof.
  intros Hx Hxy.
  assert (Hy : (0 < y)%Q) by (eapply Qlt_le_trans; eassumption).
  destruct (ilog2_spec Hx) as [Lx _]. destruct (ilog2_spec Hy) as [_ Uy].
  assert (H : (pow2 (ilog2 x) < pow2 (ilog2 y + 1))%Q).
  { eapply Qle_lt_trans; [exact Lx|]. eapply Qle_lt_trans; eassumption. }
  apply Qpower_lt_compat_l_inv in H; [lia|reflexivity].
Qed.

(** Rounding to an integer. *)

Lemma round_half_even_bounds (x : Q) :
  Qfloor x <= round_half_even x <= Qfloor x + 1.
Proof.
  unfold round_half_even.
  destruct (Qcompare _ _); [destruct (Z.even _)| |]; lia.
Qed.

#[local] Instance round_half_even_comp : Proper (Qeq ==> eq) round_half_even.
Proof.
  intros x y E. unfold round_half_even.
  rewrite (Qfloor_comp _ _ E).
  assert (C : (x - inject_Z (Qfloor y) ?= 1 # 2)%Q
              = (y - inject_Z (Qfloor y) ?= 1 # 2)%Q).
  { apply Qcompare_comp; [|reflexivity]. now rewrite E. }
  now rewrite C.
Qed.

Lemma round_half_even_Z (z : Z) : round_half_even (inject_Z z) = z.
Proof.
  unfold round_half_even. rewrite Qfloor_Z.
  destruct (Qcompare_spec (inject_Z z - inject_Z z) (1 # 2)) as [H|H|H];
    [exfalso; lra|reflexivity|exfalso; lra].
Qed.

Lemma round_half_even_le (x y : Q) :
  (x <= y)%Q -> round_half_even x <= round_half_even y.
Proof.
  intro H. pose proof (Qfloor_resp_le _ _ H) as F.
  destruct (Z.eq_dec (Qfloor x) (Qfloor y)) as [E|NE].
  - unfold round_half_even. rewrite E.
    pose proof (Qfloor_le x) as Fx. rewrite E in Fx.
    destruct (Qcompare_spec (x - inject_Z (Qfloor y)) (1 # 2)) as [Hx|Hx|Hx];
      destruct (Qcompare_spec (y - inject_Z (Qfloor y)) (1 # 2)) as [Hy|Hy|Hy];
      try (exfalso; lra); try destruct (Z.even (Qfloor y)); lia.
  - pose proof (round_half_even_bounds x). pose proof (round_half_even_bounds y).
    lia.
Qed.

(** Rounding to a double. *)

Lemma ilog2_unique (x : Q) (g : Z) :
  (pow2 g <= x < pow2 (g + 1))%Q -> ilog2 x = g.
Proof.
  intros [L U].
  assert (Hx : (0 < x)%Q) by (eapply Qlt_le_trans; [apply pow2_pos|exact L]).
  destruct (ilog2_spec Hx) as [L' U'].
  assert (H1 : (pow2 g < pow2 (ilog2 x + 1))%Q) by (eapply Qle_lt_trans; eassumption).
  assert (H2 : (pow2 (ilog2 x) < pow2 (g + 1))%Q) by (eapply Qle_lt_trans; eassumption).
  apply Qpower_lt_compat_l_inv in H1; [|reflexivity].
  apply Qpower_lt_compat_l_inv in H2; [|reflexivity]. lia.
Qed.

Lemma ilog2_comp (x y : Q) : (0 < x)%Q -> (x == y)%Q -> ilog2 x = ilog2 y.
Proof.
  intros Hx E. symmetry. apply ilog2_unique. rewrite <- E. now apply ilog2_spec.
Qed.

(** The significand of a positive rational lies in [2^52, 2^53). *)
Lemma significand_bounds (x : Q) :
  (0 < x)%Q ->
  (pow2 52 <= x / pow2 (ilog2 x - 52) < pow2 53)%Q.
Proof.
  intro Hx. destruct (ilog2_spec Hx) as [L U].
  pose proof (pow2_pos (ilog2 x - 52)) as P.
  split.
  - apply Qle_shift_div_l; [exact P|].
    rewrite <- pow2_plus. now replace (52 + (ilog2 x - 52)) with (ilog2 x) by lia.
  - apply Qlt_shift_div_r; [exact P|].
    rewrite <- pow2_plus. now replace (53 + (ilog2 x - 52)) with (ilog2 x + 1) by lia.
Qed.

Lemma round_positive_bounds (x : Q) :
  (0 < x)%Q ->
  (pow2 (ilog2 x) <= round_positive x <= pow2 (ilog2 x + 1))%Q.
Proof.
  intro Hx. destruct (significand_bounds Hx) as [L U].
  unfold round_positive.
  set (e := ilog2 x - 52) in *. pose proof (pow2_pos e) as P.
  assert (L' : 2 ^ 52 <= round_half_even (x / pow2 e)).
  { rewrite <- (round_half_even_Z (2 ^ 52)).
    apply round_half_even_le. now rewrite <- pow2_Z by lia. }
  assert (U' : round_half_even (x / pow2 e) <= 2 ^ 53).
  { rewrite <- (round_half_even_Z (2 ^ 53)).
    apply round_half_even_le. rewrite <- pow2_Z by lia.
    now apply Qlt_le_weak. }
  rewrite Zle_Qle in L', U'. rewrite <- !pow2_Z in L', U' by lia.
  split.
  - replace (ilog2 x) with (52 + e) by (unfold e; lia). rewrite pow2_plus.
    apply Qmult_le_compat_r; [exact L'|now apply Qlt_le_weak].
  - replace (ilog2 x + 1) with (53 + e) by (unfold e; lia). rewrite pow2_plus.
    apply Qmult_le_compat_r; [exact U'|now apply Qlt_le_weak].
Qed.

Lemma round_positive_pos (x : Q) : (0 < x)%Q -> (0 < round_positive x)%Q.
Proof.
  intro Hx. eapply Qlt_le_trans; [apply pow2_pos|].
  apply (round_positive_bounds Hx).
Qed.

Lemma round_positive_le (x y : Q) :
  (0 < x)%Q -> (x <= y)%Q -> (round_positive x <= round_positive y)%Q.
Proof.
  intros Hx Hxy.
  assert (Hy : (0 < y)%Q) by (eapply Qlt_le_trans; eassumption).
  pose proof (ilog2_le Hx Hxy) as G.
  destruct (Z.eq_dec (ilog2 x) (ilog2 y)) as [E|NE].
  - unfold round_positive. rewrite E.
    pose proof (pow2_pos (ilog2 y - 52)) as P.
    apply Qmult_le_compat_r; [|now apply Qlt_le_weak].
    rewrite <- Zle_Qle. apply round_half_even_le.
    apply Qmult_le_compat_r; [exact Hxy|].
    apply Qlt_le_weak, Qinv_lt_0_compat, P.
  - destruct (round_positive_bounds Hx) as [_ U].
    destruct (round_positive_bounds Hy) as [L _].
    eapply Qle_trans; [exact U|]. eapply Qle_trans; [|exact L].
    apply pow2_le. lia.
Qed.


Lemma round_double_le (x y : Q) :
  (x <= y)%Q -> (round_double x <= round_double y)%Q.
Proof.
  intro H. unfold round_double.
  pose proof (Qred_correct x) as Ex. pose proof (Qred_correct y) as Ey.
  set (x' := Qred x) in *. set (y' := Qred y) in *.
  assert (H' : (x' <= y')%Q) by now rewrite Ex, Ey.
  destruct (Qcompare_spec x' 0) as [Hx|Hx|Hx];
    destruct (Qcompare_spec y' 0) as [Hy|Hy|Hy]; try (exfalso; lra).
  - apply Qle_refl.
  - apply Qlt_le_weak, round_positive_pos, Hy.
  - assert (P : (0 < round_positive (- x'))%Q) by (apply round_positive_pos; lra).
    lra.
  - assert (P : (round_positive (- y') <= round_positive (- x'))%Q)
      by (apply round_positive_le; lra).
    lra.
  - assert (P : (0 < round_positive (- x'))%Q) by (apply round_positive_pos; lra).
    pose proof (round_positive_pos Hy). lra.
  - now apply round_positive_le.
Qed.

Lemma inject_Z_pos (z : Z) : (0 < inject_Z z)%Q <-> 0 < z.
Proof. unfold Qlt. simpl. lia. Qed.

Lemma inject_Z_neg (z : Z) : (inject_Z z < 0)%Q <-> z < 0.
Proof. unfold Qlt. simpl. lia. Qed.

(** A rational whose significand is an integer is a double already. *)
Lemma round_positive_exact (x : Q) (k : Z) :
  (x / pow2 (ilog2 x - 52) == inject_Z k)%Q -> (round_positive x == x)%Q.
Proof.
  intro E. unfold round_positive. rewrite E, round_half_even_Z, <- E.
  field. intro Z. pose proof (pow2_pos (ilog2 x - 52)). lra.
Qed.

Lemma round_positive_Z (x : Q) (z : Z) :
  (x == inject_Z z)%Q -> 0 < z < 2 ^ 53 -> (round_positive x == inject_Z z)%Q.
Proof.
  intros E [Hz Hz'].
  assert (Hx : (0 < x)%Q) by (rewrite E; now apply inject_Z_pos).
  destruct (ilog2_spec Hx) as [L _].
  assert (G : ilog2 x < 53).
  { assert (U : (x < pow2 53)%Q).
    { rewrite E. rewrite pow2_Z by lia. now rewrite <- Zlt_Qlt. }
    apply (@Qpower_lt_compat_l_inv 2); [|reflexivity].
    exact (Qle_lt_trans _ _ _ L U). }
  rewrite <- E. apply (@round_positive_exact x (z * 2 ^ (52 - ilog2 x))).
  replace (ilog2 x - 52) with (- (52 - ilog2 x)) by lia.
  assert (K : 0 <= 52 - ilog2 x) by lia.
  revert K. generalize (52 - ilog2 x). intros k K.
  unfold pow2. rewrite Qpower_opp. fold (pow2 k).
  rewrite pow2_Z by lia. rewrite inject_Z_mult. rewrite E.
  field. intro Z. rewrite <- pow2_Z in Z by lia.
  pose proof (pow2_pos k). lra.
Qed.

(** An integer below [2^53] in magnitude is a double. *)
Lemma round_double_Z (x : Q) (z : Z) :
  (x == inject_Z z)%Q -> Z.abs z < 2 ^ 53 -> (round_double x == inject_Z z)%Q.
Proof.
  intros E Hz. unfold round_double.
  pose proof (Qred_correct x) as Ex. set (x' := Qred x) in *.
  assert (E' : (x' == inject_Z z)%Q) by now rewrite Ex.
  destruct (Qcompare_spec x' 0) as [H|H|H].
  - now rewrite <- E', H.
  - assert (Hneg : z < 0).
    { rewrite E' in H. now apply inject_Z_neg. }
    rewrite (@round_positive_Z (- x') (- z)).
    + rewrite inject_Z_opp. ring.
    + rewrite inject_Z_opp, E'. reflexivity.
    + lia.
  - assert (Hpos : 0 < z).
    { rewrite E' in H. now apply inject_Z_pos. }
    apply round_positive_Z; [exact E'|lia].
Qed.

(** The error of rounding. *)

Lemma round_half_even_error (s : Q) :
  (Qabs (inject_Z (round_half_even s) - s) <= 1 # 2)%Q.
Proof.
  pose proof (Qfloor_le s) as L. pose proof (Qlt_floor s) as U.
  rewrite inject_Z_plus in U. change (inject_Z 1) with 1%Q in U.
  apply Qabs_Qle_condition. unfold round_half_even.
  destruct (Qcompare_spec (s - inject_Z (Qfloor s)) (1 # 2)) as [H|H|H];
    [destruct (Z.even (Qfloor s))| |]; rewrite ?inject_Z_plus;
    change (inject_Z 1) with 1%Q; split; lra.
Qed.

Lemma round_positive_error (x : Q) :
  (0 < x)%Q -> (Qabs (round_positive x - x) <= x * pow2 (-53))%Q.
Proof.
  intro Hx. destruct (significand_bounds Hx) as [L _].
  unfold round_positive. set (e := ilog2 x - 52) in *.
  pose proof (pow2_pos e) as P.
  set (s := (x / pow2 e)%Q) in *.
  assert (Es : (x == s * pow2 e)%Q) by (unfold s; field; lra).
  pose proof (round_half_even_error s) as R.
  apply Qabs_Qle_condition in R. destruct R as [R1 R2].
  assert (Hhalf : (pow2 52 * pow2 (-53) == 1 # 2)%Q) by reflexivity.
  set (r := inject_Z (round_half_even s)) in *.
  set (u := pow2 (-53)) in *.
  assert (Pu : (0 < u)%Q) by apply pow2_pos.
  assert (B : ((1 # 2) * pow2 e <= x * u)%Q).
  { rewrite Es. rewrite <- Hhalf.
    setoid_replace (s * pow2 e * u)%Q with (s * u * pow2 e)%Q by ring.
    apply Qmult_le_compat_r; [|lra].
    apply Qmult_le_compat_r; [exact L|lra]. }
  apply Qabs_Qle_condition.
  setoid_replace (r * pow2 e - x)%Q with ((r - s) * pow2 e)%Q by (rewrite Es; ring).
  split.
  - apply Qle_trans with (- ((1 # 2) * pow2 e))%Q; [lra|].
    setoid_replace (- ((1 # 2) * pow2 e))%Q with ((- (1 # 2)) * pow2 e)%Q by ring.
    apply Qmult_le_compat_r; lra.
  - apply Qle_trans with ((1 # 2) * pow2 e)%Q; [|exact B].
    apply Qmult_le_compat_r; lra.
Qed.

Lemma round_double_error (x : Q) :
  (0 <= x)%Q ->
  (0 <= round_double x)%Q /\ (Qabs (round_double x - x) <= x * pow2 (-53))%Q.
Proof.
  intro Hx. unfold round_double.
  pose proof (Qred_correct x) as E. set (x' := Qred x) in *.
  destruct (Qcompare_spec x' 0) as [H|H|H].
  - split; [apply Qle_refl|]. rewrite <- E, H. vm_compute. discriminate.
  - exfalso. lra.
  - split; [apply Qlt_le_weak, round_positive_pos, H|].
    rewrite <- E. now apply round_positive_error.
Qed.

(** [int] of a float. *)

Lemma int_of_float_comp (x y : Q) : (x == y)%Q -> int_of_float x = int_of_float y.
Proof.
  intro E. unfold int_of_float.
  now rewrite (Qleb_comp _ _ (Qeq_refl 0) _ _ E), (Qfloor_comp _ _ E),
    (Qceiling_comp _ _ E).
Qed.

Lemma int_of_float_Z (z : Z) : int_of_float (inject_Z z) = z.
Proof.
  unfold int_of_float. rewrite Qfloor_Z, Qceiling_Z. now destruct (Qle_bool _ _).
Qed.

Lemma int_of_float_le (x y : Q) :
  (x <= y)%Q -> int_of_float x <= int_of_float y.
Proof.
  intro H. unfold int_of_float.
  destruct (Qle_bool 0 x) eqn:Bx; destruct (Qle_bool 0 y) eqn:By.
  - now apply Qfloor_resp_le.
  - apply Qle_bool_iff in Bx. apply Qle_bool_false in By. exfalso. lra.
  - apply Qle_bool_false in Bx. apply Qle_bool_iff in By.
    apply Z.le_trans with 0.
    + rewrite <- (Qceiling_Z 0). apply Qceiling_resp_le. now apply Qlt_le_weak.
    + rewrite <- (Qfloor_Z 0). now apply Qfloor_resp_le.
  - now apply Qceiling_resp_le.
Qed.

(** ** Deduplication *)

(** Integers up to [2^53] in magnitude are doubles. *)
Lemma round_double_int (z : Z) :
  Z.abs z <= 2 ^ 53 -> (round_double (inject_Z z) == inject_Z z)%Q.
Proof.
  intro Hz.
  destruct (Z.eq_dec (Z.abs z) (2 ^ 53)) as [E|N].
  - assert (C : z = 2 ^ 53 \/ z = - 2 ^ 53) by lia.
    destruct C as [-> | ->]; vm_compute; reflexivity.
  - apply round_double_Z; [reflexivity|lia].
Qed.

Lemma double_range (z : Z) :
  Z.abs z <= 2 ^ 53 -> (- pow2 1024 < inject_Z z)%Q /\ (inject_Z z < pow2 1024)%Q.
Proof.
  intro Hz.
  assert (P : (pow2 53 < pow2 1024)%Q) by (apply pow2_lt; lia).
  assert (E : (pow2 53 == inject_Z (2 ^ 53))%Q) by (apply pow2_Z; lia).
  assert (A : (inject_Z z <= inject_Z (2 ^ 53))%Q) by (rewrite <- Zle_Qle; lia).
  assert (B : (inject_Z (- 2 ^ 53) <= inject_Z z)%Q) by (rewrite <- Zle_Qle; lia).
  rewrite inject_Z_opp in B. rewrite E in P. split; lra.
Qed.

(** [separated] and [spaced], read from the front of the list. *)
Fixpoint gaps (R : EventDetection -> EventDetection -> Prop)
    (xs : list EventDetection) : Prop :=
  match xs with
  | a :: (b :: _) as xs' => R a b /\ gaps R xs'
  | _ => True
  end.

Section Gaps.

Variable R : EventDetection -> EventDetection -> Prop.

Lemma neighbours_gaps xs :
  (forall l1 e1 e2 l2, xs = l1 ++ e1 :: e2 :: l2 -> R e1 e2) <-> gaps R xs.
Proof.
  split.
  - induction xs as [|a [|b xs] IH]; intro S; simpl; auto.
    split.
    + apply (S [] a b xs). reflexivity.
    + apply IH. intros l1 e1 e2 l2 E.
      apply (S (a :: l1) e1 e2 l2). simpl. now rewrite E.
  - induction xs as [|a [|b xs] IH]; intros G l1 e1 e2 l2 E.
    + now destruct l1.
    + destruct l1 as [|? [|? ?]]; discriminate.
    + destruct G as [Gab G]. destruct l1 as [|c l1]; simpl in E.
      * injection E as -> -> _. exact Gab.
      * injection E as _ E. exact (IH G l1 e1 e2 l2 E).
Qed.

Lemma gaps_snoc xs l e : gaps R (xs ++ [l]) -> R l e -> gaps R (xs ++ [l; e]).
Proof.
  induction xs as [|a [|b xs] IH]; simpl; intros G L.
  - auto.
  - tauto.
  - destruct G as [Gab G]. split; [exact Gab|]. exact (IH G L).
Qed.

Lemma gaps_replace_last xs l e :
  (forall a, R a l -> R a e) -> gaps R (xs ++ [l]) -> gaps R (xs ++ [e]).
Proof.
  intro M. induction xs as [|a [|b xs] IH]; simpl; intro G.
  - exact I.
  - split; [|exact I]. apply M, G.
  - destruct G as [Gab G]. split; [exact Gab|]. exact (IH G).
Qed.

Lemma gaps_middle xs l e rest : gaps R (xs ++ l :: e :: rest) -> R l e.
Proof.
  induction xs as [|a [|b xs] IH]; simpl; intro G.
  - tauto.
  - destruct G as [_ G]. tauto.
  - destruct G as [_ G]. exact (IH G).
Qed.

End Gaps.

Lemma gaps_impl (R R' : EventDetection -> EventDetection -> Prop) xs :
  (forall a b, R a b -> R' a b) -> gaps R xs -> gaps R' xs.
Proof.
  intro M. induction xs as [|a [|b xs] IH]; simpl; auto.
  intros [Gab G]. split; [exact (M _ _ Gab)|exact (IH G)].
Qed.

Section DedupFacts.

Variable window_ms : Z.

(** *** The test of the loop *)

Lemma out_of_window_true l e :
  out_of_window window_ms l e = true <->
  ((pow2 1024 <= round_double (timestamp_ms e - timestamp_ms l))%Q \/
   ((- pow2 1024 < round_double (timestamp_ms e - timestamp_ms l))%Q /\
    (inject_Z window_ms < round_double (timestamp_ms e - timestamp_ms l))%Q)).
Proof.
  unfold out_of_window. cbv zeta.
  set (d := round_double _).
  pose proof (pow2_pos 1024) as P.
  destruct (Qle_bool (pow2 1024) d) eqn:Hi.
  - apply Qle_bool_iff in Hi. tauto.
  - apply Qle_bool_false in Hi.
    destruct (Qle_bool d (- pow2 1024)) eqn:Lo.
    + apply Qle_bool_iff in Lo. split; [discriminate|].
      intros [H|[H _]]; lra.
    + apply Qle_bool_false in Lo. rewrite Qgtb_true. split; [tauto|].
      intros [H|[_ H]]; [lra|exact H].
Qed.

(** A later event is not nearer. *)
Lemma out_of_window_mono l e e' :
  (timestamp_ms e <= timestamp_ms e')%Q ->
  out_of_window window_ms l e = true -> out_of_window window_ms l e' = true.
Proof.
  intro L. rewrite !out_of_window_true.
  assert (D : (round_double (timestamp_ms e - timestamp_ms l)
               <= round_double (timestamp_ms e' - timestamp_ms l))%Q)
    by (apply round_double_le; lra).
  intros [H|[H1 H2]]; [left; lra|right; split; lra].
Qed.

(** Up to [2^53] the window is a double, and what the test puts out of the
    window is out of it as real numbers go. *)
Lemma out_of_window_far l e :
  Z.abs window_ms < 2 ^ 53 ->
  out_of_window window_ms l e = true ->
  (inject_Z window_ms < timestamp_ms e - timestamp_ms l)%Q.
Proof.
  intros Hw H. apply out_of_window_true in H.
  destruct (Qlt_le_dec (inject_Z window_ms) (timestamp_ms e - timestamp_ms l))
    as [|L]; [assumption|].
  exfalso. apply round_double_le in L.
  pose proof (@round_double_int window_ms ltac:(lia)) as E. rewrite E in L.
  destruct (@double_range window_ms ltac:(lia)) as [_ Hi].
  destruct H as [H|[_ H]]; lra.
Qed.




Lemma out_of_window_rename (f : EventDetection -> string) l e :
  out_of_window window_ms (rename f l) (rename f e)
  = out_of_window window_ms l e.
Proof. reflexivity. Qed.

(** *** The loop *)

Local Abbreviation far := (fun a b => out_of_window window_ms a b = true).
Local Abbreviation wide :=
  (fun a b => (inject_Z window_ms < timestamp_ms b - timestamp_ms a)%Q).

Lemma separated_gaps xs : separated window_ms xs <-> gaps wide xs.
Proof. exact (neighbours_gaps wide xs). Qed.

Lemma spaced_gaps xs : spaced window_ms xs <-> gaps far xs.
Proof. exact (neighbours_gaps far xs). Qed.

Lemma spaced_separated xs :
  Z.abs window_ms < 2 ^ 53 -> spaced window_ms xs -> separated window_ms xs.
Proof.
  intros Hw S. apply separated_gaps. apply spaced_gaps in S.
  revert S. apply gaps_impl. intros a b. now apply out_of_window_far.
Qed.

Lemma last_event_snoc xs l : last_event (xs ++ [l]) = Some l.
Proof. unfold last_event. now rewrite rev_unit. Qed.

Lemma set_last_snoc xs l e : set_last (xs ++ [l]) e = xs ++ [e].
Proof. unfold set_last. now rewrite removelast_last. Qed.

Lemma dedup_step_nil e : dedup_step window_ms [] e = [e].
Proof. reflexivity. Qed.

(** The three branches of the loop body on a list that is not empty. *)
Lemma dedup_step_snoc xs l e :
  dedup_step window_ms (xs ++ [l]) e =
  if out_of_window window_ms l e
  then xs ++ [l; e]
  else if Qgtb (confidence e) (confidence l) then xs ++ [e] else xs ++ [l].
Proof.
  unfold dedup_step. rewrite last_event_snoc, set_last_snoc.
  destruct (out_of_window _ _ _); [|reflexivity].
  now rewrite <- app_assoc.
Qed.

(** The loop invariant: the neighbours of what is kept pass the test, and
    nothing still to come is earlier than the last event kept. *)
Lemma dedup_loop_gaps rest :
  forall deduped,
    gaps far deduped ->
    time_ordered rest ->
    (forall l, last_event deduped = Some l ->
               Forall (fun e => (timestamp_ms l <= timestamp_ms e)%Q) rest) ->
    gaps far (fold_left (dedup_step window_ms) rest deduped).
Proof.
  induction rest as [|e rest IH]; intros deduped G O L; simpl; [exact G|].
  apply StronglySorted_inv in O. destruct O as [O Oe].
  destruct deduped as [|l xs _] using rev_ind.
  - rewrite dedup_step_nil. apply IH; [exact I|exact O|].
    intros l' E. injection E as <-. exact Oe.
  - specialize (L l (last_event_snoc xs l)).
    apply Forall_cons_iff in L. destruct L as [Le Lrest].
    rewrite dedup_step_snoc.
    destruct (out_of_window window_ms l e) eqn:Egap;
      [|destruct (Qgtb (confidence e) _) eqn:Econf].
    + apply IH; [|exact O|].
      * apply gaps_snoc; [exact G|exact Egap].
      * intros l'. change (xs ++ [l; e]) with (xs ++ [l] ++ [e]).
        rewrite app_assoc, last_event_snoc. intro E. injection E as <-.
        exact Oe.
    + apply IH; [|exact O|].
      * apply gaps_replace_last with l; [|exact G].
        intro a. now apply out_of_window_mono.
      * intros l'. rewrite last_event_snoc. intro E. injection E as <-.
        exact Oe.
    + apply IH; [exact G|exact O|].
      intros l'. rewrite last_event_snoc. intro E. injection E as <-.
      exact Lrest.
Qed.

Lemma dedup_spaced xs : time_ordered xs -> spaced window_ms (dedup window_ms xs).
Proof.
  intro O. apply spaced_gaps. unfold dedup.
  apply dedup_loop_gaps; [exact I|exact O|].
  intros l E. discriminate E.
Qed.

(** On a list whose neighbours pass the test the loop only appends. *)
Lemma dedup_loop_appends rest :
  forall deduped,
    gaps far (deduped ++ rest) ->
    fold_left (dedup_step window_ms) rest deduped = deduped ++ rest.
Proof.
  induction rest as [|e rest IH]; intros deduped G; simpl.
  - now rewrite app_nil_r.
  - change (e :: rest) with ([e] ++ rest) in G |- *.
    rewrite app_assoc in G |- *.
    rewrite <- (IH _ G). f_equal.
    destruct deduped as [|l xs _] using rev_ind; [reflexivity|].
    rewrite dedup_step_snoc.
    assert (Gle : out_of_window window_ms l e = true).
    { rewrite <- !app_assoc in G. simpl in G.
      exact (gaps_middle far xs l e rest G). }
    rewrite Gle. now rewrite <- app_assoc.
Qed.

Lemma dedup_rename_loop (f : EventDetection -> string) rest :
  forall deduped,
    fold_left (dedup_step window_ms) (map (rename f) rest)
              (map (rename f) deduped)
    = map (rename f) (fold_left (dedup_step window_ms) rest deduped).
Proof.
  induction rest as [|e rest IH]; intro deduped; simpl; [reflexivity|].
  rewrite <- IH. f_equal.
  destruct deduped as [|l xs _] using rev_ind; [reflexivity|].
  rewrite map_app. cbn [map]. rewrite !dedup_step_snoc, out_of_window_rename.
  cbn [rename confidence].
  destruct (out_of_window window_ms l e);
    [|destruct (Qgtb (confidence e) _)];
    now rewrite map_app.
Qed.

End DedupFacts.

Lemma time_ordered_sample : time_ordered [bounce_0; point_300; point_600].
Proof.
  unfold time_ordered. repeat constructor; simpl; lra.
Defined.

(** C6: on candidates in non-decreasing timestamp order, any two consecutive
    events of the deduplicated timeline are strictly more than [window_ms]
    apart: [e2.timestamp_ms - e1.timestamp_ms > window_ms] holds as the
    service subtracts and compares, whatever the window, and for a window
    below [2^53] ms, which is a double, it also holds of the real numbers
    the two time stamps are. *)
Theorem dedup_separated (window_ms : Z) (xs : list EventDetection)
    (Hxs : time_ordered xs) :
  spaced window_ms (dedup window_ms xs) /\
  (Z.abs window_ms < 2 ^ 53 -> separated window_ms (dedup window_ms xs)).
Proof.
  pose proof (dedup_spaced window_ms Hxs) as S.
  split; [exact S|]. intro Hw. now apply spaced_separated.
Qed.

Lemma dedup_separated_witness :
  time_ordered [bounce_0; point_300; point_600] /\
  spaced 500 (dedup 500 [bounce_0; point_300; point_600]) /\
  separated 500 (dedup 500 [bounce_0; point_300; point_600]).
Proof.
  destruct (dedup_separated 500 time_ordered_sample) as [S E].
  split; [exact time_ordered_sample|]. split; [exact S|].
  apply E. reflexivity.
Defined.

(** From [2^53] on a window need not be a double.  At [2^53 + 3] ms the
    stamps 1 and [2^53 + 4] are exactly as far apart as the window is wide,
    not more; their difference in doubles is [2^53 + 4], the tie going to
    the even significand, which is more than the window, and both are
    kept. *)
Lemma dedup_separated_counterexample :
  time_ordered [hit_1; hit_2p53] /\
  (timestamp_ms hit_2p53 - timestamp_ms hit_1 == inject_Z (2 ^ 53 + 3))%Q /\
  (round_double (timestamp_ms hit_2p53 - timestamp_ms hit_1)
   == inject_Z (2 ^ 53 + 4))%Q /\
  dedup (2 ^ 53 + 3) [hit_1; hit_2p53] = [hit_1; hit_2p53] /\
  ~ separated (2 ^ 53 + 3) (dedup (2 ^ 53 + 3) [hit_1; hit_2p53]).
Proof.
  split.
  { unfold time_ordered. repeat constructor. vm_compute. discriminate. }
  do 3 (split; [vm_compute; reflexivity|]).
  intro S. specialize (S [] hit_1 hit_2p53 [] ltac:(vm_compute; reflexivity)).
  revert S. vm_compute. discriminate.
Qed.

(** C7: on candidates in non-decreasing timestamp order, deduplicating the
    deduplicated timeline again changes nothing. *)
Theorem dedup_idempotent (window_ms : Z) (xs : list EventDetection)
    (Hxs : time_ordered xs) :
  dedup window_ms (dedup window_ms xs) = dedup window_ms xs.
Proof.
  assert (G : gaps (fun a b => out_of_window window_ms a b = true)
                   ([] ++ dedup window_ms xs)).
  { apply spaced_gaps. now apply dedup_spaced. }
  unfold dedup at 1. now rewrite dedup_loop_appends.
Qed.

Lemma dedup_idempotent_witness :
  time_ordered [bounce_0; point_300; point_600] /\
  dedup 500 (dedup 500 [bounce_0; point_300; point_600])
  = dedup 500 [bounce_0; point_300; point_600].
Proof.
  split; [exact time_ordered_sample|].
  apply (dedup_idempotent 500 time_ordered_sample).
Defined.



(** The distance is taken in doubles.  At a window of 1001 ms the second and
    the fourth window are stamped 500.49999999999994 and 1501.5: the real
    numbers are [2^-44] more than 1001 apart, the difference of the doubles
    is 1001.0, which is not more than the window, and the two candidates
    are merged into the first, the more confident one. *)
Lemma dedup_pair_counterexample :
  time_ordered [hit_16016; hit_48048] /\
  (timestamp_ms hit_16016 == 8804889115230207 # 17592186044416)%Q /\
  (timestamp_ms hit_48048 == 3003 # 2)%Q /\
  (timestamp_ms hit_48048 - timestamp_ms hit_16016
   == inject_Z 1001 + pow2 (-44))%Q /\
  (inject_Z 1001 < timestamp_ms hit_48048 - timestamp_ms hit_16016)%Q /\
  out_of_window 1001 hit_16016 hit_48048 = false /\
  dedup 1001 [hit_16016; hit_48048] = [hit_16016] /\
  dedup 1001 [hit_16016; hit_48048] <> [hit_16016; hit_48048].
Proof.
  split.
  { unfold time_ordered. repeat constructor. vm_compute. discriminate. }
  do 5 (split; [vm_compute; reflexivity|]).
  split; [vm_compute; reflexivity|].
  vm_compute. discriminate.
Qed.

(** C10: deduplication never looks at event names.  When the timeline of
    the candidates so far ends with [l], a next candidate [e] that the test
    of the loop does not put out of the window of [l] is merged with it
    whatever the two names are: in the timeline of the longer sequence [e]
    stands in the place of [l] when it is strictly more confident, and is
    absent otherwise, and the candidates that follow are merged from
    there.  So a stronger event of one type displaces the event of another
    type from the final timeline.  The loop body does the same on any list
    it is given, and giving the candidates other names gives the same
    timeline under the other names. *)
Theorem dedup_ignores_event_names (window_ms : Z)
    (xs kept : list EventDetection) (l e : EventDetection)
    (Hkept : dedup window_ms xs = kept ++ [l])
    (Hnear : out_of_window window_ms l e = false) :
  dedup window_ms (xs ++ [e])
  = kept ++ [if Qgtb (confidence e) (confidence l) then e else l] /\
  (forall ys,
     dedup window_ms (xs ++ e :: ys)
     = fold_left (dedup_step window_ms) ys
         (kept ++ [if Qgtb (confidence e) (confidence l) then e else l])) /\
  (forall deduped,
     dedup_step window_ms (deduped ++ [l]) e
     = deduped ++ [if Qgtb (confidence e) (confidence l) then e else l]) /\
  forall (f : EventDetection -> string) (xs' : list EventDetection),
    dedup window_ms (map (rename f) xs')
    = map (rename f) (dedup window_ms xs').
Proof.
  assert (Step : forall deduped,
             dedup_step window_ms (deduped ++ [l]) e
             = deduped ++ [if Qgtb (confidence e) (confidence l) then e else l]).
  { intro deduped. rewrite dedup_step_snoc, Hnear.
    now destruct (Qgtb (confidence e) _). }
  assert (Tail : forall ys,
             dedup window_ms (xs ++ e :: ys)
             = fold_left (dedup_step window_ms) ys
                 (kept ++ [if Qgtb (confidence e) (confidence l) then e else l])).
  { intro ys. unfold dedup. rewrite fold_left_app. cbn [fold_left].
    fold (dedup window_ms xs). now rewrite Hkept, Step. }
  split; [exact (Tail [])|]. split; [exact Tail|]. split; [exact Step|].
  intros f xs'. unfold dedup.
  exact (dedup_rename_loop window_ms f xs' []).
Qed.

(** With the bounce at 0 ms kept, the point at 300 ms, which is at most
    500 ms later, takes its place in the timeline of the two candidates. *)
Lemma dedup_ignores_event_names_witness :
  dedup 500 [bounce_0] = [] ++ [bounce_0] /\
  out_of_window 500 bounce_0 point_300 = false /\
  (timestamp_ms point_300 - timestamp_ms bounce_0 <= inject_Z 500)%Q /\
  event point_300 <> event bounce_0 /\
  dedup 500 ([bounce_0] ++ [point_300]) = [point_300].
Proof.
  assert (H : out_of_window 500 bounce_0 point_300 = false)
    by (vm_compute; reflexivity).
  split; [reflexivity|]. split; [exact H|].
  split; [unfold Qle; simpl; lia|]. split; [discriminate|].
  exact (proj1 (@dedup_ignores_event_names 500 [bounce_0] [] bounce_0
                  point_300 eq_refl H)).
Defined.

(** ** Sorted lists *)

Section SortedFacts.

Variable A : Type.
Lemma StronglySorted_skipn (R : A -> A -> Prop) (n : nat) (l : list A) :
  StronglySorted R l -> StronglySorted R (skipn n l).
Proof.
  revert l. induction n as [|n IH]; intros l S; [exact S|].
  destruct l as [|a l]; [exact S|].
  simpl. apply IH. now apply StronglySorted_inv in S.
Qed.

Lemma StronglySorted_snoc (R : A -> A -> Prop) (l : list A) (x : A) :
  StronglySorted R l -> Forall (fun y => R y x) l ->
  StronglySorted R (l ++ [x]).
Proof.
  induction 1 as [|a l S IH F]; intro H; simpl.
  - repeat constructor.
  - apply Forall_cons_iff in H. destruct H as [Ha H].
    constructor; [now apply IH|].
    apply Forall_app. split; [exact F|]. now constructor.
Qed.

Lemma StronglySorted_rev (R : A -> A -> Prop) (l : list A) :
  StronglySorted R l -> StronglySorted (fun a b => R b a) (rev l).
Proof.
  induction 1 as [|a l S IH F]; simpl; [constructor|].
  apply StronglySorted_snoc; [exact IH|].
  now apply Forall_rev.
Qed.

Lemma StronglySorted_filter (R : A -> A -> Prop) (f : A -> bool) (l : list A) :
  StronglySorted R l -> StronglySorted R (filter f l).
Proof.
  induction 1 as [|a l S IH F]; simpl; [constructor|].
  destruct (f a); [|exact IH].
  constructor; [exact IH|].
  apply Forall_forall. intros x Hx. apply filter_In in Hx.
  rewrite Forall_forall in F. now apply F.
Qed.

Lemma StronglySorted_map (B : Type) (R : A -> A -> Prop)
    (S : B -> B -> Prop) (g : A -> B) (l : list A) :
  (forall a b, R a b -> S (g a) (g b)) ->
  StronglySorted R l -> StronglySorted S (map g l).
Proof.
  intro H. induction 1 as [|a l Sl IH F]; simpl; constructor; [exact IH|].
  apply Forall_map. revert F. apply Forall_impl. intro b. apply H.
Qed.

(** In a sorted list the relation holds between any two positions. *)
Lemma StronglySorted_between (R : A -> A -> Prop) (l1 l2 l3 : list A)
    (i j : A) :
  StronglySorted R (l1 ++ i :: l2 ++ j :: l3) -> R i j.
Proof.
  induction l1 as [|a l1 IH]; simpl; intro S;
    apply StronglySorted_inv in S; destruct S as [S F].
  - rewrite Forall_forall in F. apply F.
    apply in_or_app. right. now left.
  - exact (IH S).
Qed.

(** Counting the elements that pass an upward closed test in a suffix of a
    sorted list. *)
Lemma sorted_suffix_count (R : A -> A -> Prop) (good : A -> bool)
    (l : list A) :
  (forall a b, R a b -> good a = true -> good b = true) ->
  StronglySorted R l ->
  forall n,
    List.length (filter good (skipn n l))
    = Nat.min (List.length l - n) (List.length (filter good l)).
Proof.
  intro Up. induction 1 as [|a l S IH F]; intro n.
  - now destruct n.
  - destruct n as [|n].
    + simpl skipn. rewrite Nat.sub_0_r.
      symmetry. apply Nat.min_r. apply filter_length_le.
    + simpl skipn. rewrite IH. simpl.
      destruct (good a) eqn:Ga; [|reflexivity].
      assert (All : filter good l = l).
      { apply forallb_filter_id. apply forallb_forall. intros x Hx.
        rewrite Forall_forall in F. exact (Up a x (F x Hx) Ga). }
      rewrite All. simpl. lia.
Qed.

Lemma Permutation_filter_length (f : A -> bool) (l l' : list A) :
  Permutation l l' -> List.length (filter f l) = List.length (filter f l').
Proof.
  induction 1 as [|x l l' P IH|x y l|l l' l'' P1 IH1 P2 IH2]; simpl.
  - reflexivity.
  - destruct (f x); simpl; congruence.
  - destruct (f x), (f y); reflexivity.
  - congruence.
Qed.

End SortedFacts.

(** ** Top-k selection *)

Section TopKFacts.

Variable probs : list Q.

Local Abbreviation sort_indices := (fold_right (insert_index probs) []).

Lemma insert_index_perm (i : nat) (l : list nat) :
  Permutation (insert_index probs i l) (i :: l).
Proof.
  induction l as [|j l IH]; simpl; [reflexivity|].
  destruct (Qle_bool _ _); [reflexivity|].
  rewrite IH. apply perm_swap.
Qed.

Lemma sort_indices_perm (l : list nat) : Permutation (sort_indices l) l.
Proof.
  induction l as [|i l IH]; simpl; [reflexivity|].
  rewrite insert_index_perm. now constructor.
Qed.

Lemma argsort_perm :
  Permutation (argsort probs) (seq 0 (List.length probs)).
Proof. apply sort_indices_perm. Qed.

(** Inserting an index smaller than all the others keeps [index_order]. *)
Lemma insert_index_sorted (i : nat) (l : list nat) :
  StronglySorted (index_order probs) l ->
  Forall (lt i) l ->
  StronglySorted (index_order probs) (insert_index probs i l).
Proof.
  induction 1 as [|j l S IH F]; intro Lt; simpl.
  - repeat constructor.
  - apply Forall_cons_iff in Lt. destruct Lt as [Lij Lt].
    destruct (Qle_bool (prob_at probs i) (prob_at probs j)) eqn:E.
    + apply Qle_bool_iff in E.
      assert (Rij : index_order probs i j).
      { unfold index_order. destruct (Qlt_le_dec (prob_at probs i) (prob_at probs j)).
        - now left.
        - right. split; [lra|exact Lij]. }
      constructor; [now constructor|].
      constructor; [exact Rij|].
      rewrite Forall_forall in F, Lt |- *. intros x Hx.
      specialize (F x Hx). specialize (Lt x Hx).
      unfold index_order in *.
      destruct (Qlt_le_dec (prob_at probs i) (prob_at probs x)).
      * now left.
      * right. split; [|exact Lt]. destruct F as [F|[F _]]; lra.
    + constructor; [now apply IH|].
      assert (Rji : index_order probs j i).
      { left. apply Qgtb_true. unfold Qgtb. now rewrite E. }
      apply (Permutation_Forall (Permutation_sym (insert_index_perm i l))).
      now constructor.
Qed.

Lemma sort_seq_sorted (n a : nat) :
  StronglySorted (index_order probs) (sort_indices (seq a n)).
Proof.
  revert a. induction n as [|n IH]; intro a; simpl; [constructor|].
  apply insert_index_sorted; [apply IH|].
  apply (Permutation_Forall (Permutation_sym (sort_indices_perm (seq (S a) n)))).
  apply Forall_forall. intros x Hx. apply in_seq in Hx. lia.
Qed.

Lemma argsort_sorted : StronglySorted (index_order probs) (argsort probs).
Proof. apply sort_seq_sorted. Qed.

(** What is selected comes in the reverse of the order of [argsort]. *)
Lemma selected_sorted (top_k : Z) :
  StronglySorted (fun i j => index_order probs j i)
                 (selected_indices probs top_k).
Proof.
  unfold selected_indices, top_indices, slice_from.
  apply StronglySorted_filter, StronglySorted_rev, StronglySorted_skipn.
  exact argsort_sorted.
Qed.

Lemma selected_in_range (top_k : Z) (i : nat) :
  In i (selected_indices probs top_k) -> (i < List.length probs)%nat.
Proof.
  unfold selected_indices, top_indices, slice_from. intro H.
  apply filter_In in H. destruct H as [H _].
  apply in_rev in H.
  assert (H' : In i (argsort probs)).
  { rewrite <- (firstn_skipn (Z.to_nat (slice_bound
       (Z.of_nat (List.length (argsort probs))) (- top_k))) (argsort probs)).
    apply in_or_app. now right. }
  apply (Permutation_in _ argsort_perm) in H'. apply in_seq in H'. lia.
Qed.

Lemma selected_above_floor (top_k : Z) (i : nat) :
  In i (selected_indices probs top_k) -> (tag_floor < prob_at probs i)%Q.
Proof.
  unfold selected_indices. intro H. apply filter_In in H.
  now apply Qgtb_true.
Qed.

Lemma argsort_length : List.length (argsort probs) = List.length probs.
Proof.
  rewrite (Permutation_length argsort_perm). apply length_seq.
Qed.

Lemma map_prob_at_seq :
  map (prob_at probs) (seq 0 (List.length probs)) = probs.
Proof.
  unfold prob_at. induction probs as [|p l IH]; simpl; [reflexivity|].
  f_equal. rewrite <- seq_shift, map_map. exact IH.
Qed.

Lemma count_indices_above_floor :
  List.length (filter (fun i => Qgtb (prob_at probs i) tag_floor) (argsort probs))
  = count_above_floor probs.
Proof.
  rewrite (Permutation_filter_length _ argsort_perm).
  unfold count_above_floor.
  transitivity (List.length (filter (fun p => Qgtb p tag_floor)
                  (map (prob_at probs) (seq 0 (List.length probs))))).
  - now rewrite filter_map_swap, length_map.
  - do 2 f_equal. apply map_prob_at_seq.
Qed.

End TopKFacts.

Lemma index_order_above_floor (probs : list Q) (i j : nat) :
  index_order probs i j ->
  Qgtb (prob_at probs i) tag_floor = true ->
  Qgtb (prob_at probs j) tag_floor = true.
Proof.
  intros [H|[H _]] G; apply Qgtb_true in G; apply Qgtb_true; lra.
Qed.

Lemma selected_length (probs : list Q) (top_k : Z) :
  0 < top_k ->
  List.length (selected_indices probs top_k)
  = Nat.min (Z.to_nat top_k) (count_above_floor probs).
Proof.
  intro Hk. unfold selected_indices, top_indices, slice_from.
  rewrite filter_rev, length_rev.
  rewrite (@sorted_suffix_count nat (index_order probs)
             (fun i => Qgtb (prob_at probs i) tag_floor) (argsort probs)
             (@index_order_above_floor probs) (argsort_sorted probs)).
  rewrite argsort_length, count_indices_above_floor.
  assert (C : (count_above_floor probs <= List.length probs)%nat)
    by apply filter_length_le.
  unfold slice_bound. destruct (Z.ltb_spec (- top_k) 0); lia.
Qed.

(** With no more probabilities than labels, no lookup of a label fails. *)
Lemma classify_tags_ok (labels : list string) (probs : list Q) (top_k : Z) :
  (List.length probs <= List.length labels)%nat ->
  classify_tags labels probs top_k
  = Ok (map (fun i => mkTagResult (nth i labels ""%string) (prob_at probs i))
            (selected_indices probs top_k)).
Proof.
  intro Hlen. unfold classify_tags.
  assert (F : Forall (fun i => (i < List.length labels)%nat)
                     (selected_indices probs top_k)).
  { apply Forall_forall. intros i Hi. apply selected_in_range in Hi. lia. }
  induction F as [|i sel Hi F IH]; simpl; [reflexivity|].
  unfold getitem at 1.
  rewrite (nth_error_nth' labels ""%string Hi). simpl.
  now rewrite IH.
Qed.

(** Slicing from [-top_k] keeps everything when [top_k] is zero or at least
    the length. *)
Lemma slice_from_keeps_all (A : Type) (a : list A) (top_k : Z) :
  top_k = 0 \/ Z.of_nat (List.length a) <= top_k ->
  slice_from a (- top_k) = a.
Proof.
  intro H. unfold slice_from, slice_bound.
  replace (Z.to_nat _) with 0%nat; [reflexivity|].
  destruct (Z.ltb_spec (- top_k) 0); lia.
Qed.

(** A [top_k] above the vocabulary size behaves as the vocabulary size. *)
Lemma selected_indices_clamped (probs : list Q) (top_k : Z) :
  Z.of_nat (List.length probs) <= top_k ->
  selected_indices probs top_k
  = selected_indices probs (Z.of_nat (List.length probs)).
Proof.
  intro H. unfold selected_indices, top_indices.
  rewrite !slice_from_keeps_all; [reflexivity| |];
    right; rewrite argsort_length; lia.
Qed.

(** A [top_k] of zero selects among the whole vocabulary. *)
Lemma selected_indices_zero (probs : list Q) :
  selected_indices probs 0
  = selected_indices probs (Z.of_nat (List.length probs)).
Proof.
  unfold selected_indices, top_indices.
  rewrite !slice_from_keeps_all; [reflexivity| |].
  - right. rewrite argsort_length. lia.
  - now left.
Qed.

(** C3: a [top_k] of zero does not give an empty tag list; on two labels,
    both above the floor, it gives both tags. *)
Theorem classify_tags_top_k_zero :
  classify_tags ["A"; "B"]%string [9 # 10; 5 # 10]%Q 0
  = Ok [mkTagResult "A" (9 # 10); mkTagResult "B" (5 # 10)].
Proof. reflexivity. Qed.

(** A negative [top_k] drops that many of the least probable entries
    instead of giving an empty list. *)
Example classify_tags_top_k_negative :
  classify_tags ["A"; "B"; "C"]%string [9 # 10; 5 # 10; 4 # 10]%Q (-1)
  = Ok [mkTagResult "A" (9 # 10); mkTagResult "B" (5 # 10)].
Proof. reflexivity. Qed.

(** C5: for a positive [top_k] and a vocabulary aligned with the
    probabilities, the tag list has [min(top_k, count(p > 0.05))] entries,
    all strictly above 0.05, in descending confidence order; and
    [0.9, 0.05, 0.5, 0.01, 0.3] with [top_k = 3] gives A, C, E. *)
Theorem classify_tags_top_k :
  (forall (labels : list string) (probs : list Q) (top_k : Z),
     0 < top_k ->
     List.length labels = List.length probs ->
     exists tags,
       classify_tags labels probs top_k = Ok tags /\
       List.length tags = Nat.min (Z.to_nat top_k) (count_above_floor probs) /\
       Forall (fun t => (tag_floor < tag_confidence t)%Q) tags /\
       descending tags) /\
  classify_tags ["A"; "B"; "C"; "D"; "E"]%string
                [9 # 10; 5 # 100; 5 # 10; 1 # 100; 3 # 10]%Q 3
  = Ok [mkTagResult "A" (9 # 10); mkTagResult "C" (5 # 10);
        mkTagResult "E" (3 # 10)].
Proof.
  split; [|reflexivity].
  intros labels probs top_k Hk Hlen.
  eexists. split; [apply classify_tags_ok; lia|].
  split; [|split].
  - rewrite length_map. now apply selected_length.
  - apply Forall_map, Forall_forall. intros i Hi. simpl.
    exact (selected_above_floor _ _ _ Hi).
  - unfold descending.
    refine (StronglySorted_map _ _ _ (selected_sorted probs top_k)).
    intros a b [H|[H _]]; simpl; lra.
Qed.

(** Scenario E again, through the general statement. *)
Lemma classify_tags_top_k_witness :
  exists tags,
    classify_tags ["A"; "B"; "C"; "D"; "E"]%string
                  [9 # 10; 5 # 100; 5 # 10; 1 # 100; 3 # 10]%Q 3 = Ok tags /\
    List.length tags = 3%nat /\
    Forall (fun t => (tag_floor < tag_confidence t)%Q) tags /\
    descending tags.
Proof.
  apply (proj1 classify_tags_top_k
           ["A"; "B"; "C"; "D"; "E"]%string
           [9 # 10; 5 # 100; 5 # 10; 1 # 100; 3 # 10]%Q 3).
  - lia.
  - reflexivity.
Defined.

(** ** The window length *)

Lemma window_quotient (window_ms : Z) :
  (inject_Z (window_ms * sr) / inject_Z 1000 == inject_Z (32 * window_ms))%Q.
Proof.
  unfold sr. replace (window_ms * 32000) with (32 * window_ms * 1000) by lia.
  rewrite (inject_Z_mult (32 * window_ms) 1000). field.
Qed.

Lemma window_samples_le (a b : Z) :
  a <= b -> window_samples a <= window_samples b.
Proof.
  intro H. unfold window_samples.
  apply int_of_float_le, round_double_le.
  rewrite !window_quotient. rewrite <- Zle_Qle. lia.
Qed.

(** Up to [2^48] milliseconds the window is exactly [32 * window_ms] samples
    and the hop [16 * window_ms]. *)
Lemma window_samples_eq (window_ms : Z) :
  Z.abs window_ms < 2 ^ 48 -> window_samples window_ms = 32 * window_ms.
Proof.
  intro H. unfold window_samples.
  rewrite (int_of_float_comp
             (round_double_Z (window_quotient window_ms) ltac:(lia))).
  apply int_of_float_Z.
Qed.

Lemma hop_samples_eq (window_ms : Z) :
  Z.abs window_ms < 2 ^ 48 -> hop_samples window_ms = 16 * window_ms.
Proof.
  intro H. unfold hop_samples. rewrite window_samples_eq by exact H.
  replace (32 * window_ms) with (16 * window_ms * 2) by lia.
  apply Z.div_mul. lia.
Qed.

Lemma window_samples_pos (window_ms : Z) :
  0 < window_ms -> 32 <= window_samples window_ms.
Proof.
  intro H. change 32 with (window_samples 1). apply window_samples_le. lia.
Qed.

Lemma window_samples_neg (window_ms : Z) :
  window_ms < 0 -> window_samples window_ms <= -32.
Proof.
  intro H. change (-32) with (window_samples (-1)). apply window_samples_le. lia.
Qed.

Lemma hop_samples_pos (window_ms : Z) : 0 < window_ms -> 0 < hop_samples window_ms.
Proof.
  intro H. apply window_samples_pos in H. unfold hop_samples.
  apply Z.div_str_pos. lia.
Qed.

Lemma hop_samples_neg (window_ms : Z) : window_ms < 0 -> hop_samples window_ms < 0.
Proof.
  intro H. apply window_samples_neg in H. unfold hop_samples.
  apply Z.div_lt_upper_bound; lia.
Qed.

(** The division of line 312 stays within the doubles below [2^1018]
    milliseconds, and leaves them from [2^1019] on. *)
Lemma true_divide_window_ok (window_ms : Z) :
  Z.abs window_ms < 2 ^ 1018 ->
  exists q, true_divide (window_ms * sr) 1000 = Ok q.
Proof.
  intro H. unfold true_divide. cbn [Z.eqb].
  set (x := (inject_Z (window_ms * sr) / inject_Z 1000)%Q).
  assert (U : (round_double x <= round_double (inject_Z (2 ^ 1023)))%Q).
  { apply round_double_le. unfold x. rewrite window_quotient.
    rewrite <- Zle_Qle. lia. }
  assert (L : (round_double (inject_Z (- 2 ^ 1023)) <= round_double x)%Q).
  { apply round_double_le. unfold x. rewrite window_quotient.
    rewrite <- Zle_Qle. lia. }
  assert (U' : (round_double (inject_Z (2 ^ 1023)) < pow2 1024)%Q)
    by (vm_compute; reflexivity).
  assert (L' : (- pow2 1024 < round_double (inject_Z (- 2 ^ 1023)))%Q)
    by (vm_compute; reflexivity).
  destruct (Qle_bool (pow2 1024) (Qabs (round_double x))) eqn:B.
  - exfalso. apply Qle_bool_iff in B.
    assert (A : (Qabs (round_double x) < pow2 1024)%Q).
    { apply Qabs_Qlt_condition. split.
      - eapply Qlt_le_trans; [exact L'|exact L].
      - eapply Qle_lt_trans; [exact U|exact U']. }
    exact (Qlt_not_le _ _ A B).
  - eexists. reflexivity.
Qed.

Lemma true_divide_window_overflow (window_ms : Z) :
  2 ^ 1019 <= Z.abs window_ms ->
  true_divide (window_ms * sr) 1000 = Raised OtherException.
Proof.
  intro H. unfold true_divide. cbn [Z.eqb].
  set (x := (inject_Z (window_ms * sr) / inject_Z 1000)%Q).
  assert (B : (pow2 1024 <= Qabs (round_double x))%Q).
  { destruct (Z.le_gt_cases 0 window_ms) as [P|N].
    - apply Qabs_ge.
      apply Qle_trans with (round_double (inject_Z (2 ^ 1024))).
      + vm_compute. discriminate.
      + apply round_double_le. unfold x. rewrite window_quotient.
        rewrite <- Zle_Qle. lia.
    - rewrite <- Qabs_opp. apply Qabs_ge.
      apply Qle_trans with (- round_double (inject_Z (- 2 ^ 1024)))%Q.
      + vm_compute. discriminate.
      + apply Qopp_le_compat. apply round_double_le. unfold x.
        rewrite window_quotient. rewrite <- Zle_Qle. lia. }
  apply Qle_bool_iff in B. now rewrite B.
Qed.

(** When the loop runs, its starts are those of the [range]. *)
Lemma window_starts_ok (n window_ms : Z) (l : list Z) :
  window_starts n window_ms = Ok l ->
  range 0 (n - window_samples window_ms) (hop_samples window_ms) = Ok l.
Proof.
  unfold window_starts.
  destruct (true_divide (window_ms * sr) 1000); [|discriminate].
  intro E. exact E.
Qed.

Lemma window_starts_in_range (n window_ms : Z) :
  Z.abs window_ms < 2 ^ 1018 ->
  window_starts n window_ms
  = range 0 (n - window_samples window_ms) (hop_samples window_ms).
Proof.
  intro H. unfold window_starts.
  destruct (@true_divide_window_ok window_ms H) as [q ->]. reflexivity.
Qed.

(** ** Sliding windows *)

Lemma range_length (start stop step : Z) (l : list Z) :
  range start stop step = Ok l ->
  Z.of_nat (List.length l) = Z.max 0 (range_len start stop step).
Proof.
  unfold range. destruct (step =? 0); [discriminate|].
  intro E. injection E as <-. rewrite length_map, length_seq. lia.
Qed.

(** The loop visits the starts [0, H, 2H, ...] strictly below [N - W]. *)
Lemma window_starts_spec (n window_ms : Z) (l : list Z) :
  0 < hop_samples window_ms ->
  window_starts n window_ms = Ok l ->
  forall s, In s l <->
    exists k, 0 <= k /\ s = k * hop_samples window_ms /\
              s + window_samples window_ms < n.
Proof.
  intros Hh E. apply window_starts_ok in E. unfold range in E.
  destruct (Z.eqb_spec (hop_samples window_ms) 0) as [H0|_]; [lia|].
  injection E as <-. intro s. rewrite in_map_iff.
  set (h := hop_samples window_ms) in *. set (w := window_samples window_ms).
  unfold range_len. destruct (Z.ltb_spec 0 h) as [_|]; [|lia].
  split.
  - intros [k [<- Hk]]. apply in_seq in Hk. exists (Z.of_nat k).
    split; [lia|]. split; [lia|].
    destruct (Z.ltb_spec 0 (n - w)) as [Hpos|Hneg]; [|simpl in Hk; lia].
    assert (D : Z.of_nat k <= (n - w - 0 - 1) / h) by lia.
    assert (M : h * ((n - w - 0 - 1) / h) <= n - w - 0 - 1)
      by (apply Z.mul_div_le; lia).
    nia.
  - intros [k [Hk [-> Hlt]]]. exists (Z.to_nat k).
    split; [lia|]. apply in_seq.
    destruct (Z.ltb_spec 0 (n - w)) as [Hpos|Hneg]; [|nia].
    assert (D : k <= (n - w - 0 - 1) / h)
      by (apply Z.div_le_lower_bound; lia).
    lia.
Qed.

(** The number of windows the loop classifies, against the count of the
    specification: one fewer whenever the hop divides [N - W]. *)
Lemma window_count_vs_spec (n window_ms : Z) (l : list Z) :
  0 < hop_samples window_ms ->
  window_samples window_ms <= n ->
  window_starts n window_ms = Ok l ->
  Z.of_nat (List.length l)
  = spec_window_count n (window_samples window_ms) (hop_samples window_ms)
    - (if (n - window_samples window_ms) mod hop_samples window_ms =? 0
       then 1 else 0).
Proof.
  intros Hh Hn E. apply window_starts_ok, range_length in E. rewrite E. clear E.
  unfold spec_window_count, range_len.
  set (h := hop_samples window_ms) in *. set (w := window_samples window_ms) in *.
  destruct (Z.leb_spec w n) as [_|]; [|lia].
  destruct (Z.ltb_spec 0 h) as [_|]; [|lia].
  pose proof (Z.div_mod (n - w) h ltac:(lia)) as DM.
  pose proof (Z.mod_pos_bound (n - w) h Hh) as MB.
  destruct (Z.ltb_spec 0 (n - w)) as [Hpos|Hzero].
  - destruct (Z.eqb_spec ((n - w) mod h) 0) as [M0|M1].
    + assert (Q1 : 1 <= (n - w) / h) by nia.
      assert (D : (n - w - 0 - 1) / h = (n - w) / h - 1).
      { symmetry. apply (Z.div_unique _ _ _ (h - 1)); lia. }
      lia.
    + assert (D : (n - w - 0 - 1) / h = (n - w) / h).
      { symmetry. apply (Z.div_unique _ _ _ ((n - w) mod h - 1)); lia. }
      assert (Q0 : 0 <= (n - w) / h) by (apply Z.div_pos; lia).
      lia.
  - replace (n - w) with 0 by lia. rewrite Z.mod_0_l by lia. simpl. lia.
Qed.

(** A clip exactly one window long gets no window at all. *)
Lemma window_starts_clip_equals_window (window_ms : Z) (l : list Z) :
  window_starts (window_samples window_ms) window_ms = Ok l -> l = [].
Proof.
  intro E. apply window_starts_ok in E. revert E.
  unfold range, range_len. rewrite Z.sub_diag.
  destruct (hop_samples window_ms =? 0); [discriminate|].
  destruct (0 <? hop_samples window_ms); intro E; now injection E as <-.
Qed.

(** C1: with the default [window_ms = 500] the window is 16000 samples and
    the hop 8000; on a clip of exactly 16000 samples the loop classifies no
    window, where the count of the specification is 1, and on a clip of
    24000 samples it classifies the window at 0 only, not the one at 8000. *)
Theorem window_starts_one_window_clip :
  window_samples 500 = 16000 /\
  hop_samples 500 = 8000 /\
  window_starts 16000 500 = Ok [] /\
  spec_window_count 16000 16000 8000 = 1 /\
  window_starts 24000 500 = Ok [0] /\
  spec_window_count 24000 16000 8000 = 2.
Proof.
  do 5 (apply conj; [vm_compute; reflexivity|]). vm_compute. reflexivity.
Qed.

(** ** The request handlers *)

Section HandlerFacts.

Variable decode : list byte -> option (list Q).
Variable loaded : option AudioTagging.

Lemma fresh_path_above (w : World) :
  Forall (fun f => (fst f < fresh_path w)%nat) w.
Proof.
  unfold fresh_path. induction w as [|[q c] w IH]; simpl; constructor.
  - simpl. lia.
  - revert IH. apply Forall_impl. intros f H. lia.
Qed.

Lemma unlink_fresh_path (w : World) : unlink (fresh_path w) w = w.
Proof.
  unfold unlink. apply forallb_filter_id, forallb_forall.
  intros f Hf. pose proof (fresh_path_above w) as F.
  rewrite Forall_forall in F. specialize (F f Hf).
  apply negb_true_iff, Nat.eqb_neq. lia.
Qed.

(** Once the upload is written, the [finally] clause puts the directory back
    as it was. *)
Lemma finally_unlink_restores (c : list byte) (w : World) :
  finally_unlink (fresh_path w) (write (fresh_path w) c ((fresh_path w, []) :: w))
  = w.
Proof.
  unfold finally_unlink. simpl. rewrite Nat.eqb_refl. simpl.
  rewrite Nat.eqb_refl. simpl. apply unlink_fresh_path.
Qed.

(** A request without a file name touches nothing. *)
Lemma classify_audio_no_filename (file : UploadFile) (top_k : Z) (w : World) :
  no_filename file = true ->
  classify_audio decode loaded file top_k w
  = (Raised (LockNHTTPException VALIDATION_MISSING_FIELD 400), w).
Proof. unfold classify_audio. now intros ->. Qed.

(** With a file name and a payload that is not empty, [classify_audio]
    leaves no temporary file behind, whatever the outcome. *)
Lemma classify_audio_cleans_up (file : UploadFile) (top_k : Z) (w : World) :
  content file <> [] ->
  snd (classify_audio decode loaded file top_k w) = w.
Proof.
  intro Hc. unfold classify_audio, NamedTemporaryFile.
  destruct (no_filename file); [reflexivity|].
  destruct (content file) as [|b c]; [congruence|].
  simpl List.length. cbn [Nat.eqb snd]. apply finally_unlink_restores.
Qed.

(** The same for [detect_events]. *)
Lemma detect_events_cleans_up (file : UploadFile)
    (events : option (list string)) (window_ms : Z) (w : World) :
  content file <> [] ->
  snd (detect_events decode loaded file events window_ms w) = w.
Proof.
  intro Hc. unfold detect_events, NamedTemporaryFile.
  destruct (no_filename file); [reflexivity|].
  destruct (content file) as [|b c]; [congruence|].
  simpl List.length. cbn [Nat.eqb snd]. apply finally_unlink_restores.
Qed.

(** With a file name and an empty payload, both handlers raise before the
    [try] block and the new temporary file stays. *)
Lemma empty_payload_leaks (file : UploadFile) (top_k : Z)
    (events : option (list string)) (window_ms : Z) (w : World) :
  no_filename file = false ->
  content file = [] ->
  classify_audio decode loaded file top_k w
  = (Raised (LockNHTTPException LISTEN_INVALID_AUDIO_FORMAT 400),
     (fresh_path w, []) :: w) /\
  detect_events decode loaded file events window_ms w
  = (Raised (LockNHTTPException LISTEN_INVALID_AUDIO_FORMAT 400),
     (fresh_path w, []) :: w).
Proof.
  intros Hn Hc. unfold classify_audio, detect_events, NamedTemporaryFile.
  now rewrite Hn, Hc.
Qed.

(** C2: an upload named [clip.wav] with an empty payload, sent to an empty
    temporary directory, makes both handlers raise the invalid-format error
    and leave the temporary file they created behind. *)
Theorem empty_payload_leaves_temp_file (top_k : Z)
    (events : option (list string)) (window_ms : Z) :
  classify_audio decode loaded (mkUploadFile (Some "clip.wav"%string) []) top_k []
  = (Raised (LockNHTTPException LISTEN_INVALID_AUDIO_FORMAT 400), [(1%nat, [])]) /\
  detect_events decode loaded (mkUploadFile (Some "clip.wav"%string) [])
                events window_ms []
  = (Raised (LockNHTTPException LISTEN_INVALID_AUDIO_FORMAT 400), [(1%nat, [])]).
Proof. split; reflexivity. Qed.

(** C9: two calls of [detect_events] that differ only in the [events]
    filter give the same outcome, timeline and duration included, and leave
    the same temporary directory. *)
Theorem detect_events_ignores_events_filter (file : UploadFile)
    (events1 events2 : option (list string)) (window_ms : Z) (w : World) :
  detect_events decode loaded file events1 window_ms w
  = detect_events decode loaded file events2 window_ms w.
Proof. reflexivity. Qed.

(** A clip of exactly one default window, decoded and classified by any
    model, gives an empty timeline: the model is never asked. *)
Lemma detect_events_one_window_clip (m : AudioTagging) (audio : list Q)
    (file : UploadFile) (events : option (list string)) (w : World) :
  no_filename file = false ->
  content file <> [] ->
  decode (content file) = Some audio ->
  loaded = Some m ->
  Z.of_nat (List.length audio) = 16000 ->
  fst (detect_events decode loaded file events 500 w)
  = Ok (mkDetectResponse [] (duration_of audio)).
Proof.
  intros Hn Hc Hd Hm Hlen. unfold detect_events, NamedTemporaryFile.
  rewrite Hn. destruct (content file) as [|b c] eqn:Ec; [congruence|].
  simpl List.length. cbn [Nat.eqb fst].
  unfold detect_body, librosa_load, get_model. simpl write.
  rewrite Nat.eqb_refl. simpl read_path. rewrite Nat.eqb_refl.
  simpl app. rewrite Hd, Hm. cbn [except_as bind]. rewrite Hlen.
  assert (E : window_starts 16000 500 = Ok []) by (vm_compute; reflexivity).
  rewrite E. reflexivity.
Qed.

End HandlerFacts.

(** * Part III: more of the service *)

(** ** Sliding windows, continued *)

Lemma range_ascending (stop step : Z) (l : list Z) :
  0 < step -> range 0 stop step = Ok l -> StronglySorted Z.lt l.
Proof.
  unfold range. intros Hs E.
  destruct (Z.eqb_spec step 0) as [|_]; [lia|]. injection E as <-.
  generalize (Z.to_nat (range_len 0 stop step)). intro len.
  generalize 0%nat as a.
  induction len as [|len IH]; intro a; simpl; constructor; [apply IH|].
  apply Forall_map, Forall_forall. intros k Hk. apply in_seq in Hk. nia.
Qed.

(** X1: for a positive [window_ms] below [2^1018], where the division of
    line 312 stays within the doubles, the window loop does not fail; it
    visits, in ascending order, exactly the multiples of the hop whose
    window ends strictly before the end of the clip, [(N - W - 1) / H + 1]
    of them when the clip is longer than one window and none otherwise. *)
Theorem window_starts_positive (n window_ms : Z) (Hw : 0 < window_ms)
    (Hrange : window_ms < 2 ^ 1018) :
  exists l,
    window_starts n window_ms = Ok l /\
    StronglySorted Z.lt l /\
    (forall s, In s l <->
       exists k, 0 <= k /\ s = k * hop_samples window_ms /\
                 s + window_samples window_ms < n) /\
    Z.of_nat (List.length l)
    = if window_samples window_ms <? n
      then (n - window_samples window_ms - 1) / hop_samples window_ms + 1
      else 0.
Proof.
  assert (Hh : 0 < hop_samples window_ms) by now apply hop_samples_pos.
  destruct (window_starts n window_ms) as [l|e] eqn:E.
  - exists l. split; [reflexivity|]. split; [|split].
    + exact (@range_ascending _ _ _ Hh (window_starts_ok _ _ E)).
    + exact (@window_starts_spec n window_ms l Hh E).
    + rewrite (@range_length _ _ _ _ (window_starts_ok _ _ E)). unfold range_len.
      rewrite Z.sub_0_r.
      destruct (Z.ltb_spec 0 (hop_samples window_ms)); [|lia].
      destruct (Z.ltb_spec 0 (n - window_samples window_ms));
        destruct (Z.ltb_spec (window_samples window_ms) n); try lia.
      assert (0 <= (n - window_samples window_ms - 1) / hop_samples window_ms)
        by (apply Z.div_pos; lia).
      lia.
  - exfalso. rewrite window_starts_in_range in E by lia. unfold range in E.
    destruct (Z.eqb_spec (hop_samples window_ms) 0); [lia|discriminate].
Qed.

Lemma window_starts_positive_witness :
  exists l,
    window_starts 64 1 = Ok l /\
    StronglySorted Z.lt l /\
    (forall s, In s l <->
       exists k, 0 <= k /\ s = k * hop_samples 1 /\
                 s + window_samples 1 < 64) /\
    Z.of_nat (List.length l) = 2.
Proof.
  apply (@window_starts_positive 64 1).
  - lia.
  - vm_compute. reflexivity.
Defined.

Lemma window_timestamp_mono (a b : Z) :
  a <= b -> (window_timestamp a <= window_timestamp b)%Q.
Proof.
  intro H. unfold window_timestamp, sr.
  assert (Hq : (inject_Z a <= inject_Z b)%Q) by now rewrite <- Zle_Qle.
  apply round_double_le.
  apply Qmult_le_compat_r; [|discriminate].
  apply round_double_le.
  apply Qmult_le_compat_r; [exact Hq|discriminate].
Qed.

Lemma window_timestamp_error (start : Z) :
  0 <= start ->
  (Qabs (window_timestamp start - inject_Z start / 32)
   <= inject_Z start / 32 * pow2 (-51))%Q.
Proof.
  intro Hs. unfold window_timestamp, sr.
  set (q := (inject_Z start / inject_Z 32000)%Q).
  assert (Hq : (0 <= q)%Q).
  { unfold q. apply Qle_shift_div_l; [reflexivity|].
    rewrite Qmult_0_l. unfold Qle. simpl. lia. }
  destruct (round_double_error Hq) as [Pa Ea].
  set (a := round_double q) in *.
  assert (Hy : (0 <= a * 1000)%Q) by lra.
  destruct (round_double_error Hy) as [Pt Et].
  set (t := round_double (a * 1000)) in *.
  assert (Eq32 : (inject_Z start / 32 == q * 1000)%Q) by (unfold q; field).
  rewrite Eq32.
  set (u := pow2 (-53)) in *.
  assert (Eu : (pow2 (-51) == 4 * u)%Q) by reflexivity.
  assert (Pu : (0 < u)%Q) by apply pow2_pos.
  assert (Uu : (u <= 1)%Q) by (vm_compute; discriminate).
  rewrite Eu.
  apply Qabs_Qle_condition in Ea. apply Qabs_Qle_condition in Et.
  apply Qabs_Qle_condition.
  assert (Qu : (0 <= q * u)%Q) by (apply Qmult_le_0_compat; lra).
  assert (Quu : (q * u * u <= q * u)%Q) by nra.
  assert (Au : (a * u <= q * u + q * u * u)%Q) by nra.
  assert (Au' : (0 <= a * u)%Q) by nra.
  split; nra.
Qed.

(** X2: up to [2^48] milliseconds the window is exactly [32 * window_ms]
    samples and the hop [16 * window_ms].  A time stamp is rounded twice,
    so it need not be the exact time [start / 32] of its start, but it is
    within [2^-51] of it in relative terms, and a later start never gets an
    earlier stamp. *)
Theorem window_samples_and_stamps (window_ms a b : Z)
    (Hw : Z.abs window_ms < 2 ^ 48) (Ha : 0 <= a) (Hab : a <= b) :
  window_samples window_ms = 32 * window_ms /\
  hop_samples window_ms = 16 * window_ms /\
  (window_timestamp a <= window_timestamp b)%Q /\
  (Qabs (window_timestamp a - inject_Z a / 32)
   <= inject_Z a / 32 * pow2 (-51))%Q.
Proof.
  split; [now apply window_samples_eq|]. split; [now apply hop_samples_eq|].
  split; [now apply window_timestamp_mono|now apply window_timestamp_error].
Qed.

Lemma window_samples_and_stamps_witness :
  window_samples 500 = 32 * 500 /\
  hop_samples 500 = 16 * 500 /\
  (window_timestamp 16016 <= window_timestamp 24000)%Q /\
  (Qabs (window_timestamp 16016 - inject_Z 16016 / 32)
   <= inject_Z 16016 / 32 * pow2 (-51))%Q.
Proof.
  apply (@window_samples_and_stamps 500 16016 24000).
  - vm_compute. reflexivity.
  - lia.
  - lia.
Defined.

(** The stamp of start 16016 is not the exact 500.5 but the double just
    below it. *)
Example window_timestamp_16016 :
  (window_timestamp 16016 == 8804889115230207 # 17592186044416)%Q /\
  (window_timestamp 16016 < 1001 # 2)%Q.
Proof. split; vm_compute; reflexivity. Qed.

Lemma slice_window_length (audio : list Q) (s w : Z) :
  0 <= s -> 0 <= w -> s + w <= Z.of_nat (List.length audio) ->
  Z.of_nat (List.length (slice audio s (s + w))) = w.
Proof.
  intros Hs Hw Hn. unfold slice, slice_bound.
  destruct (Z.ltb_spec s 0); [lia|].
  destruct (Z.ltb_spec (s + w) 0); [lia|].
  rewrite length_firstn, length_skipn. lia.
Qed.

(** X3: for a positive [window_ms], every chunk handed to the model is
    exactly [window_samples] long: no window runs over the end of the clip. *)
Theorem window_chunks_full (audio : list Q) (window_ms : Z) (l : list Z)
    (s : Z) (Hw : 0 < window_ms)
    (Hl : window_starts (Z.of_nat (List.length audio)) window_ms = Ok l)
    (Hs : In s l) :
  Z.of_nat (List.length (slice audio s (s + window_samples window_ms)))
  = window_samples window_ms.
Proof.
  assert (Hh : 0 < hop_samples window_ms) by now apply hop_samples_pos.
  apply (@window_starts_spec _ _ _ Hh Hl) in Hs.
  destruct Hs as [k [Hk [-> Hlt]]].
  apply slice_window_length; [nia| |lia].
  pose proof (window_samples_pos Hw). lia.
Qed.

Lemma window_chunks_full_witness :
  Z.of_nat (List.length (slice (repeat 0%Q 64) 16 (16 + window_samples 1)))
  = window_samples 1.
Proof.
  apply (@window_chunks_full (repeat 0%Q 64) 1 [0; 16] 16).
  - lia.
  - vm_compute. reflexivity.
  - simpl. tauto.
Defined.

(** ** The candidate filter *)

Lemma skipn_nth_error (A : Type) (l : list A) (i : nat) (x : A) :
  nth_error l i = Some x -> skipn i l = x :: skipn (S i) l.
Proof.
  revert l. induction i as [|i IH]; intros [|y l] E; try discriminate.
  - now injection E as ->.
  - simpl in E. apply IH in E. exact E.
Qed.

Lemma window_candidates_props (ts : Q) (labelled : list (string * Q)) :
  Forall (fun e => timestamp_ms e = ts /\
                   (event_threshold < confidence e)%Q /\
                   In (event e) (map snd SPORTS_SOUNDS))
         (window_candidates ts labelled).
Proof.
  unfold window_candidates. apply Forall_flat_map, Forall_forall.
  intros [l p] _. cbn [fst snd].
  destruct (dict_get SPORTS_SOUNDS l) as [ev|] eqn:D; [|constructor].
  destruct (Qgtb p event_threshold) eqn:G; constructor; [|constructor].
  cbn [timestamp_ms confidence event]. split; [reflexivity|].
  split; [now apply Qgtb_true|].
  clear G. revert D. generalize SPORTS_SOUNDS as d.
  induction d as [|[k v] d IH]; simpl; [discriminate|].
  destruct (String.eqb l k); intro D.
  - injection D as ->. now left.
  - right. exact (IH D).
Qed.

Lemma window_candidates_cons (ts : Q) (l : string) (p : Q)
    (rest : list (string * Q)) :
  window_candidates ts ((l, p) :: rest)
  = match dict_get SPORTS_SOUNDS l with
    | Some ev =>
        if Qgtb p event_threshold then [mkEventDetection ev ts p] else []
    | None => []
    end ++ window_candidates ts rest.
Proof. reflexivity. Qed.

Lemma window_events_from (labels : list string) (ts : Q) (probs : list Q) :
  forall (i : nat) (detected : list EventDetection),
    (i + List.length probs <= List.length labels)%nat ->
    window_events labels ts i probs detected
    = Ok (detected ++ window_candidates ts (combine (skipn i labels) probs)).
Proof.
  induction probs as [|p probs IH]; intros i detected H.
  - cbn [window_events]. destruct (skipn i labels); cbn; now rewrite app_nil_r.
  - cbn [List.length] in H. cbn [window_events]. unfold getitem.
    destruct (nth_error labels i) as [l|] eqn:E.
    + rewrite (skipn_nth_error _ _ E). cbn [bind combine].
      rewrite window_candidates_cons, IH by lia. f_equal.
      destruct (dict_get SPORTS_SOUNDS l); [|reflexivity].
      destruct (Qgtb p event_threshold); [|reflexivity].
      now rewrite <- app_assoc.
    + apply nth_error_None in E. lia.
Qed.

(** X4: when the vocabulary has a label for every probability, the scan of
    one window cannot fail: it appends to the candidates found so far, in
    vocabulary order, one candidate for each label of the table whose
    probability is strictly above 0.3, stamped with the time of the window
    and named by the table. *)
Theorem window_events_candidates (labels : list string) (ts : Q)
    (probs : list Q) (detected : list EventDetection)
    (Hlen : (List.length probs <= List.length labels)%nat) :
  window_events labels ts 0 probs detected
  = Ok (detected ++ window_candidates ts (combine labels probs)) /\
  Forall (fun e => timestamp_ms e = ts /\
                   (event_threshold < confidence e)%Q /\
                   In (event e) (map snd SPORTS_SOUNDS))
         (window_candidates ts (combine labels probs)).
Proof.
  split; [|apply window_candidates_props].
  now rewrite window_events_from.
Qed.

Lemma window_events_candidates_witness :
  window_events ["Speech"; "Music"; "Tap"]%string 250 0
                [6 # 10; 9 # 10; 3 # 10]%Q [bounce_0]
  = Ok (bounce_0 :: [mkEventDetection "voice" 250 (6 # 10)]) /\
  Forall (fun e => timestamp_ms e = 250%Q /\
                   (event_threshold < confidence e)%Q /\
                   In (event e) (map snd SPORTS_SOUNDS))
         [mkEventDetection "voice" 250 (6 # 10)].
Proof.
  apply (@window_events_candidates ["Speech"; "Music"; "Tap"]%string 250
           [6 # 10; 9 # 10; 3 # 10]%Q [bounce_0]).
  simpl. lia.
Defined.

Lemma window_events_short_from (labels : list string) (ts : Q) (probs : list Q) :
  forall (i : nat) (detected : list EventDetection),
    (i <= List.length labels < i + List.length probs)%nat ->
    window_events labels ts i probs detected = Raised OtherException.
Proof.
  induction probs as [|p probs IH]; intros i detected H;
    cbn [List.length] in H; [lia|].
  cbn [window_events]. unfold getitem.
  destruct (nth_error labels i) as [l|] eqn:E; cbn [bind].
  - apply IH. assert (i < List.length labels)%nat; [|lia].
    apply nth_error_Some. congruence.
  - reflexivity.
Qed.

(** X5: when the model gives more probabilities than the vocabulary has
    labels, the scan of a window raises IndexError, whatever the
    probabilities are and whatever was found before. *)
Theorem window_events_short_vocabulary (labels : list string) (ts : Q)
    (probs : list Q) (detected : list EventDetection)
    (Hlen : (List.length labels < List.length probs)%nat) :
  window_events labels ts 0 probs detected = Raised OtherException.
Proof.
  apply window_events_short_from. lia.
Qed.

Lemma window_events_short_vocabulary_witness :
  window_events ["Speech"]%string 0 0 [1 # 10; 1 # 10]%Q []
  = Raised OtherException.
Proof.
  apply (@window_events_short_vocabulary ["Speech"]%string 0
           [1 # 10; 1 # 10]%Q []).
  simpl. lia.
Defined.

(** What a successful scan of a window leaves: the candidates found before,
    then candidates of this window. *)
Lemma window_events_inv (labels : list string) (ts : Q) (probs : list Q)
    (detected detected' : list EventDetection) :
  window_events labels ts 0 probs detected = Ok detected' ->
  exists new,
    detected' = detected ++ new /\
    Forall (fun e => timestamp_ms e = ts /\
                     (event_threshold < confidence e)%Q /\
                     In (event e) (map snd SPORTS_SOUNDS)) new.
Proof.
  intro E.
  destruct (Nat.le_gt_cases (List.length probs) (List.length labels)) as [H|H].
  - rewrite window_events_from in E by lia. injection E as <-.
    eexists. split; [reflexivity|]. apply window_candidates_props.
  - rewrite window_events_short_from in E by lia. discriminate.
Qed.

(** ** Deduplication, continued *)

Section DedupMore.

Variable window_ms : Z.

(** The loop body keeps what it had, or takes the candidate, and leaves a
    list that is not empty and at most one longer. *)
Lemma dedup_step_cases (deduped : list EventDetection) (e : EventDetection) :
  incl (dedup_step window_ms deduped e) (deduped ++ [e]) /\
  (List.length (dedup_step window_ms deduped e) <= S (List.length deduped))%nat /\
  dedup_step window_ms deduped e <> [].
Proof.
  destruct deduped as [|l xs _] using rev_ind.
  - rewrite dedup_step_nil. repeat split; [apply incl_refl|simpl; lia|discriminate].
  - rewrite dedup_step_snoc.
    destruct (out_of_window window_ms l e);
      [|destruct (Qgtb (confidence e) _)]; repeat split.
    + rewrite <- app_assoc. apply incl_refl.
    + rewrite !length_app. simpl. lia.
    + now destruct xs.
    + intros x Hx. apply in_app_or in Hx. destruct Hx as [Hx|Hx].
      * apply in_or_app. left. apply in_or_app. now left.
      * apply in_or_app. now right.
    + rewrite !length_app. simpl. lia.
    + now destruct xs.
    + apply incl_appl, incl_refl.
    + lia.
    + now destruct xs.
Qed.

Lemma dedup_loop_incl (rest : list EventDetection) :
  forall deduped,
    incl (fold_left (dedup_step window_ms) rest deduped) (deduped ++ rest) /\
    (List.length (fold_left (dedup_step window_ms) rest deduped)
     <= List.length deduped + List.length rest)%nat.
Proof.
  induction rest as [|e rest IH]; intro deduped; simpl.
  - rewrite app_nil_r. split; [apply incl_refl|lia].
  - destruct (IH (dedup_step window_ms deduped e)) as [I L].
    destruct (dedup_step_cases deduped e) as [I1 [L1 _]].
    split; [|lia].
    intros x Hx. apply I in Hx. apply in_app_or in Hx.
    change (e :: rest) with ([e] ++ rest). rewrite app_assoc.
    apply in_or_app. destruct Hx as [Hx|Hx]; [left; now apply I1|now right].
Qed.

Lemma dedup_loop_not_nil (rest : list EventDetection) :
  forall deduped,
    deduped <> [] -> fold_left (dedup_step window_ms) rest deduped <> [].
Proof.
  induction rest as [|e rest IH]; intros deduped H; simpl; [exact H|].
  apply IH. apply dedup_step_cases.
Qed.

(** A candidate is covered when something kept is at least as confident. *)
Local Abbreviation covered c kept :=
  (Exists (fun k => (confidence c <= confidence k)%Q) kept).

Lemma dedup_step_covers (deduped : list EventDetection) (e : EventDetection) :
  covered e (dedup_step window_ms deduped e) /\
  forall c, covered c deduped -> covered c (dedup_step window_ms deduped e).
Proof.
  destruct deduped as [|l xs _] using rev_ind.
  - rewrite dedup_step_nil. split.
    + constructor. apply Qle_refl.
    + intros c H. inversion H.
  - rewrite dedup_step_snoc.
    destruct (out_of_window window_ms l e) eqn:G;
      [|destruct (Qgtb (confidence e) (confidence l)) eqn:C]; split.
    + apply Exists_app. right. apply Exists_cons_tl. constructor. apply Qle_refl.
    + intros c H. apply Exists_app in H. apply Exists_app.
      destruct H as [H|H]; [now left|right].
      inversion H as [? ? H1|? ? H1]; [now constructor|inversion H1].
    + apply Exists_app. right. constructor. apply Qle_refl.
    + intros c H. apply Exists_app in H. apply Exists_app.
      destruct H as [H|H]; [now left|right].
      inversion H as [? ? H1|? ? H1]; [|inversion H1].
      constructor. apply Qgtb_true in C. lra.
    + apply Exists_app. right. constructor. now apply Qgtb_false.
    + intros c H. exact H.
Qed.

Lemma dedup_loop_covers (rest : list EventDetection) :
  forall deduped,
    Forall (fun c => covered c (fold_left (dedup_step window_ms) rest deduped))
           rest /\
    forall c, covered c deduped ->
              covered c (fold_left (dedup_step window_ms) rest deduped).
Proof.
  induction rest as [|e rest IH]; intro deduped; simpl.
  - split; [constructor|auto].
  - destruct (IH (dedup_step window_ms deduped e)) as [F K].
    destruct (dedup_step_covers deduped e) as [Ce Cc].
    split.
    + constructor; [now apply K|exact F].
    + intros c H. apply K, Cc, H.
Qed.

End DedupMore.

(** X6: deduplication invents nothing and never grows the list: every event
    of the timeline is one of the candidates, the timeline is no longer than
    the candidate list, and it is empty only when there is no candidate.
    No order of the candidates is needed for this. *)
Theorem dedup_selects (window_ms : Z) (xs : list EventDetection) :
  incl (dedup window_ms xs) xs /\
  (List.length (dedup window_ms xs) <= List.length xs)%nat /\
  (dedup window_ms xs = [] <-> xs = []).
Proof.
  unfold dedup. destruct (dedup_loop_incl window_ms xs []) as [I L].
  split; [exact I|]. split; [exact L|].
  split.
  - destruct xs as [|e xs]; [reflexivity|]. simpl. intro H. exfalso.
    revert H. apply dedup_loop_not_nil. discriminate.
  - now intros ->.
Qed.

(** X7: no candidate is lost to a weaker one: for every candidate the
    timeline holds an event that is at least as confident, so the highest
    confidence among the candidates is in the timeline.  No order of the
    candidates is needed for this. *)
Theorem dedup_keeps_strongest (window_ms : Z) (xs : list EventDetection) :
  Forall (fun c => Exists (fun k => (confidence c <= confidence k)%Q)
                          (dedup window_ms xs)) xs.
Proof.
  unfold dedup. apply dedup_loop_covers.
Qed.

(** ** The window loop as a whole *)

Lemma StronglySorted_app (A : Type) (R : A -> A -> Prop) (l1 l2 : list A) :
  StronglySorted R l1 -> StronglySorted R l2 ->
  (forall a b, In a l1 -> In b l2 -> R a b) ->
  StronglySorted R (l1 ++ l2).
Proof.
  induction 1 as [|a l1 S IH F]; intros S2 H; simpl; [exact S2|].
  constructor.
  - apply IH; [exact S2|]. intros x y Hx Hy. apply H; [now right|exact Hy].
  - apply Forall_app. split; [exact F|].
    apply Forall_forall. intros y Hy. apply H; [now left|exact Hy].
Qed.

Lemma same_time_ordered (ts : Q) (l : list EventDetection) :
  Forall (fun e => timestamp_ms e = ts) l -> time_ordered l.
Proof.
  unfold time_ordered. induction 1 as [|e l He F IH]; constructor; [exact IH|].
  revert F. apply Forall_impl. intros x Hx. rewrite He, Hx. apply Qle_refl.
Qed.

Lemma window_range_negative (n window_ms : Z) :
  window_ms < 0 -> 0 <= n ->
  range 0 (n - window_samples window_ms) (hop_samples window_ms) = Ok [].
Proof.
  intros Hw Hn. pose proof (window_samples_neg Hw) as W.
  pose proof (hop_samples_neg Hw) as H.
  unfold range, range_len.
  destruct (Z.eqb_spec (hop_samples window_ms) 0); [lia|].
  destruct (Z.ltb_spec 0 (hop_samples window_ms)); [lia|].
  destruct (Z.ltb_spec (n - window_samples window_ms) 0); [lia|reflexivity].
Qed.

Lemma window_starts_negative (n window_ms : Z) :
  - 2 ^ 1018 < window_ms < 0 -> 0 <= n -> window_starts n window_ms = Ok [].
Proof.
  intros Hw Hn. rewrite window_starts_in_range by lia.
  apply window_range_negative; lia.
Qed.

Lemma window_starts_zero (n : Z) : window_starts n 0 = Raised OtherException.
Proof. vm_compute. reflexivity. Qed.

(** Whenever the loop runs at all, its starts ascend and are multiples of
    the hop that are not negative. *)
Lemma window_starts_shape (n window_ms : Z) (l : list Z) :
  0 <= n ->
  window_starts n window_ms = Ok l ->
  StronglySorted Z.lt l /\
  Forall (fun s => exists k, 0 <= k /\ s = k * hop_samples window_ms) l.
Proof.
  intros Hn E. destruct (Z.lt_trichotomy window_ms 0) as [Hw|[->|Hw]].
  - apply window_starts_ok in E.
    rewrite window_range_negative in E by lia. injection E as <-.
    split; constructor.
  - rewrite window_starts_zero in E. discriminate E.
  - assert (Hh : 0 < hop_samples window_ms) by now apply hop_samples_pos.
    split; [exact (@range_ascending _ _ _ Hh (window_starts_ok _ _ E))|].
    apply Forall_forall. intros s Hs.
    apply (@window_starts_spec _ _ _ Hh E) in Hs.
    destruct Hs as [k [Hk [-> _]]]. now exists k.
Qed.

Section ScanFacts.

Variable model : AudioTagging.
Variable audio : list Q.
Variable window_ms : Z.

(** What one candidate of the loop looks like: stamped with the time of one
    of the starts, above the threshold, named by the table. *)
Local Abbreviation candidate_of starts :=
  (fun e => (exists s, In s starts /\ timestamp_ms e = window_timestamp s) /\
            (event_threshold < confidence e)%Q /\
            In (event e) (map snd SPORTS_SOUNDS)).

Lemma scan_windows_inv (starts : list Z) :
  forall detected detected',
    StronglySorted Z.lt starts ->
    scan_windows model audio window_ms starts detected = Ok detected' ->
    exists new,
      detected' = detected ++ new /\
      time_ordered new /\
      Forall (candidate_of starts) new.
Proof.
  induction starts as [|s rest IH]; intros detected detected' S E.
  - injection E as <-. exists []. rewrite app_nil_r.
    repeat split; constructor.
  - cbn [scan_windows] in E.
    destruct (inference model _) as [probs|] eqn:Ei; [|discriminate].
    cbn [bind] in E.
    destruct (window_events _ _ _ _ _) as [d1|] eqn:Ew; [|discriminate].
    cbn [bind] in E.
    apply StronglySorted_inv in S. destruct S as [S Hs].
    apply window_events_inv in Ew. destruct Ew as [new1 [-> F1]].
    destruct (IH _ _ S E) as [new2 [-> [O2 F2]]].
    exists (new1 ++ new2). rewrite app_assoc. split; [reflexivity|].
    split.
    + apply StronglySorted_app; [|exact O2|].
      * apply (@same_time_ordered (window_timestamp s)).
        revert F1. apply Forall_impl. tauto.
      * intros a b Ha Hb.
        rewrite Forall_forall in F1, F2, Hs.
        destruct (F1 a Ha) as [-> _].
        destruct (F2 b Hb) as [[s' [Hs' ->]] _].
        apply window_timestamp_mono. specialize (Hs s' Hs'). lia.
    + apply Forall_app. split.
      * revert F1. apply Forall_impl. intros e [Ht Hr].
        split; [|exact Hr]. exists s. split; [now left|exact Ht].
      * revert F2. apply Forall_impl. intros e [[s' [Hs' Ht]] Hr].
        split; [|exact Hr]. exists s'. split; [now right|exact Ht].
Qed.

(** A failure of the model on any window fails the whole loop: no partial
    list of candidates comes back. *)
Lemma scan_windows_failure (starts1 starts2 : list Z) (s : Z)
    (e : Exception) :
  forall detected,
    inference model (slice audio s (s + window_samples window_ms)) = Raised e ->
    (forall s1, In s1 starts1 ->
       exists probs,
         inference model (slice audio s1 (s1 + window_samples window_ms))
         = Ok probs /\
         (List.length probs <= List.length (labels model))%nat) ->
    scan_windows model audio window_ms (starts1 ++ s :: starts2) detected
    = Raised e.
Proof.
  induction starts1 as [|s1 rest IH]; intros detected Hs H1.
  - cbn [app scan_windows]. now rewrite Hs.
  - cbn [app scan_windows].
    destruct (H1 s1 (or_introl eq_refl)) as [probs [Ei Hlen]].
    rewrite Ei. cbn [bind].
    rewrite window_events_from by (simpl; lia). cbn [bind].
    apply IH; [exact Hs|]. intros s' Hs'. apply H1. now right.
Qed.

End ScanFacts.

(** ** The request handlers, continued *)

Lemma except_clauses_outcome (A : Type) (r : result A) :
  (forall e, r = Raised e -> e = OtherException \/ service_error e) ->
  service_outcome (except_clauses r).
Proof.
  intro H. destruct r as [a|[c s|]]; simpl; [exact I| |].
  - destruct (H _ eq_refl) as [E|E]; [discriminate|exact E].
  - unfold service_error. tauto.
Qed.

Lemma mapM_raises (A B : Type) (f : A -> result B) (l : list A)
    (e : Exception) :
  (forall x e', f x = Raised e' -> e' = OtherException) ->
  mapM f l = Raised e -> e = OtherException.
Proof.
  intro Hf. induction l as [|x l IH]; simpl; [discriminate|].
  destruct (f x) as [y|e'] eqn:Ex; simpl.
  - destruct (mapM f l); simpl; [discriminate|].
    intro E. injection E as <-. now apply IH.
  - intro E. injection E as <-. exact (Hf _ _ Ex).
Qed.

Lemma getitem_raises (A : Type) (a : list A) (i : nat) (e : Exception) :
  getitem a i = Raised e -> e = OtherException.
Proof.
  unfold getitem. destruct (nth_error a i); [discriminate|].
  intro E. now injection E.
Qed.

Lemma classify_tags_raises (labels : list string) (probs : list Q)
    (top_k : Z) (e : Exception) :
  classify_tags labels probs top_k = Raised e -> e = OtherException.
Proof.
  unfold classify_tags. apply mapM_raises. intros i e'.
  destruct (getitem labels i) eqn:G; simpl; [discriminate|].
  intro E. injection E as <-. exact (getitem_raises _ _ G).
Qed.

Lemma window_events_raises (labels : list string) (ts : Q) (probs : list Q)
    (e : Exception) :
  forall i detected,
    window_events labels ts i probs detected = Raised e -> e = OtherException.
Proof.
  induction probs as [|p probs IH]; intros i detected; cbn [window_events];
    [discriminate|].
  destruct (getitem labels i) eqn:G; cbn [bind].
  - apply IH.
  - intro E. injection E as <-. exact (getitem_raises _ _ G).
Qed.

Lemma scan_windows_raises (m : AudioTagging) (audio : list Q) (window_ms : Z)
    (starts : list Z) (e : Exception) :
  plain_failures m ->
  forall detected,
    scan_windows m audio window_ms starts detected = Raised e ->
    e = OtherException.
Proof.
  intro Hm. induction starts as [|s rest IH]; intro detected;
    cbn [scan_windows]; [discriminate|].
  destruct (inference m _) eqn:Ei; cbn [bind].
  - destruct (window_events _ _ _ _ _) eqn:Ew; cbn [bind]; [apply IH|].
    intro E. injection E as <-. exact (window_events_raises _ _ _ _ _ Ew).
  - intro E. injection E as <-. exact (Hm _ _ Ei).
Qed.

Lemma window_starts_raises (n window_ms : Z) (e : Exception) :
  window_starts n window_ms = Raised e -> e = OtherException.
Proof.
  unfold window_starts, true_divide, range. cbn [Z.eqb].
  destruct (Qle_bool _ _); cbn [bind].
  - intro E. now injection E.
  - destruct (_ =? 0); [|discriminate]. intro E. now injection E.
Qed.

Section HandlerMore.

Variable decode : list byte -> option (list Q).
Variable loaded : option AudioTagging.

Lemma librosa_load_head (p : nat) (c : list byte) (w : World) :
  librosa_load decode p ((p, c) :: w)
  = match decode c with
    | Some audio => Ok audio
    | None => Raised OtherException
    end.
Proof. unfold librosa_load. simpl. now rewrite Nat.eqb_refl. Qed.

Lemma write_fresh (c : list byte) (w : World) :
  write (fresh_path w) c ((fresh_path w, []) :: w) = (fresh_path w, c) :: w.
Proof. simpl. now rewrite Nat.eqb_refl. Qed.

(** Both handlers on an upload with a name and a payload: the [try] block
    runs on the directory with the upload written, and the directory comes
    back as it was. *)
Lemma classify_audio_upload (file : UploadFile) (top_k : Z) (w : World) :
  no_filename file = false ->
  content file <> [] ->
  classify_audio decode loaded file top_k w
  = (except_clauses
       (classify_body decode loaded (fresh_path w) top_k
          ((fresh_path w, content file) :: w)), w).
Proof.
  intros Hn Hc. unfold classify_audio, NamedTemporaryFile. rewrite Hn.
  destruct (content file) as [|b c] eqn:Ec; [congruence|].
  cbn [List.length Nat.eqb].
  now rewrite finally_unlink_restores, write_fresh.
Qed.

Lemma detect_events_upload (file : UploadFile) (events : option (list string))
    (window_ms : Z) (w : World) :
  no_filename file = false ->
  content file <> [] ->
  detect_events decode loaded file events window_ms w
  = (except_clauses
       (detect_body decode loaded (fresh_path w) events window_ms
          ((fresh_path w, content file) :: w)), w).
Proof.
  intros Hn Hc. unfold detect_events, NamedTemporaryFile. rewrite Hn.
  destruct (content file) as [|b c] eqn:Ec; [congruence|].
  cbn [List.length Nat.eqb].
  now rewrite finally_unlink_restores, write_fresh.
Qed.

(** X8: with a payload that is not empty, both handlers leave the temporary
    directory exactly as they found it, whatever the outcome: their own file
    is gone and no file of another request is touched. *)
Theorem handlers_restore_directory (file : UploadFile) (top_k : Z)
    (events : option (list string)) (window_ms : Z) (w : World)
    (Hc : content file <> []) :
  snd (classify_audio decode loaded file top_k w) = w /\
  snd (detect_events decode loaded file events window_ms w) = w.
Proof.
  split.
  - now apply classify_audio_cleans_up.
  - now apply detect_events_cleans_up.
Qed.

(** X9: a request whose file has no name, or an empty one, is refused with
    VALIDATION_MISSING_FIELD and status 400 before anything else happens: no
    temporary file is made, even when the payload is empty as well. *)
Theorem missing_filename_refused (file : UploadFile) (top_k : Z)
    (events : option (list string)) (window_ms : Z) (w : World)
    (Hn : no_filename file = true) :
  classify_audio decode loaded file top_k w
  = (Raised (LockNHTTPException VALIDATION_MISSING_FIELD 400), w) /\
  detect_events decode loaded file events window_ms w
  = (Raised (LockNHTTPException VALIDATION_MISSING_FIELD 400), w).
Proof.
  unfold classify_audio, detect_events. now rewrite Hn.
Qed.

(** X10: an upload the decoder cannot read is refused with
    LISTEN_INVALID_AUDIO_FORMAT and status 400 by both handlers, whether or
    not the model can be loaded, and the temporary file is removed. *)
Theorem undecodable_audio_refused (file : UploadFile) (top_k : Z)
    (events : option (list string)) (window_ms : Z) (w : World)
    (Hn : no_filename file = false)
    (Hc : content file <> [])
    (Hd : decode (content file) = None) :
  classify_audio decode loaded file top_k w
  = (Raised (LockNHTTPException LISTEN_INVALID_AUDIO_FORMAT 400), w) /\
  detect_events decode loaded file events window_ms w
  = (Raised (LockNHTTPException LISTEN_INVALID_AUDIO_FORMAT 400), w).
Proof.
  rewrite classify_audio_upload, detect_events_upload by assumption.
  unfold classify_body, detect_body.
  now rewrite librosa_load_head, Hd.
Qed.

(** X11: when the audio decodes and the model cannot be loaded, both handlers
    answer LISTEN_MODEL_NOT_LOADED with status 503, not 502, and the
    temporary file is removed. *)
Theorem model_not_loaded_reported (file : UploadFile) (top_k : Z)
    (events : option (list string)) (window_ms : Z) (w : World)
    (audio : list Q)
    (Hn : no_filename file = false)
    (Hc : content file <> [])
    (Hd : decode (content file) = Some audio)
    (Hm : loaded = None) :
  classify_audio decode loaded file top_k w
  = (Raised (LockNHTTPException LISTEN_MODEL_NOT_LOADED 503), w) /\
  detect_events decode loaded file events window_ms w
  = (Raised (LockNHTTPException LISTEN_MODEL_NOT_LOADED 503), w).
Proof.
  rewrite classify_audio_upload, detect_events_upload by assumption.
  unfold classify_body, detect_body, get_model.
  now rewrite librosa_load_head, Hd, Hm.
Qed.

(** X12: when the model fails on the clip, [classify_audio] answers
    LISTEN_CLASSIFICATION_FAILED with status 502 and removes the temporary
    file. *)
Theorem classify_inference_failure (file : UploadFile) (top_k : Z) (w : World)
    (audio : list Q) (m : AudioTagging)
    (Hn : no_filename file = false)
    (Hc : content file <> [])
    (Hd : decode (content file) = Some audio)
    (Hm : loaded = Some m)
    (Hi : inference m audio = Raised OtherException) :
  classify_audio decode loaded file top_k w
  = (Raised (LockNHTTPException LISTEN_CLASSIFICATION_FAILED 502), w).
Proof.
  rewrite classify_audio_upload by assumption.
  unfold classify_body, get_model.
  rewrite librosa_load_head, Hd, Hm. cbn [except_as bind].
  now rewrite Hi.
Qed.

(** X13: a successful classification: the response carries the label and
    the probability of a list of vocabulary indices, each in range and
    strictly above 0.05, in descending probability order,
    [min(top_k, count(p > 0.05))] of them for a positive [top_k]; the
    duration is [len(audio) / 32000] as a double; the temporary file is
    removed.  Nothing is said of the order among equal probabilities. *)
Theorem classify_audio_success (file : UploadFile) (top_k : Z) (w : World)
    (audio : list Q) (m : AudioTagging) (probs : list Q)
    (Hn : no_filename file = false)
    (Hc : content file <> [])
    (Hd : decode (content file) = Some audio)
    (Hm : loaded = Some m)
    (Hi : inference m audio = Ok probs)
    (Hl : (List.length probs <= List.length (labels m))%nat) :
  exists sel,
    classify_audio decode loaded file top_k w
    = (Ok (mkClassifyResponse
             (map (fun i => mkTagResult (nth i (labels m) ""%string)
                                        (prob_at probs i)) sel)
             (duration_of audio)), w) /\
    Forall (fun i => (i < List.length probs)%nat /\
                     (tag_floor < prob_at probs i)%Q) sel /\
    StronglySorted (fun i j => (prob_at probs j <= prob_at probs i)%Q) sel /\
    (0 < top_k ->
     List.length sel = Nat.min (Z.to_nat top_k) (count_above_floor probs)).
Proof.
  exists (selected_indices probs top_k). split; [|split; [|split]].
  - rewrite classify_audio_upload by assumption.
    unfold classify_body, get_model.
    rewrite librosa_load_head, Hd, Hm. cbn [except_as bind].
    rewrite Hi. cbn [bind]. now rewrite classify_tags_ok.
  - apply Forall_forall. intros i Hi'. split.
    + exact (selected_in_range _ _ _ Hi').
    + exact (selected_above_floor _ _ _ Hi').
  - pose proof (selected_sorted probs top_k) as S.
    revert S. generalize (selected_indices probs top_k) as l.
    induction 1 as [|a l S IH F]; constructor; [exact IH|].
    revert F. apply Forall_impl. intros b [H|[H _]]; lra.
  - intro Hk. now apply selected_length.
Qed.

End HandlerMore.

Lemma sample_file_named : no_filename sample_file = false.
Proof. reflexivity. Defined.

Lemma sample_file_payload : content sample_file <> [].
Proof. discriminate. Defined.

Lemma handlers_restore_directory_witness :
  snd (classify_audio sample_decode (Some sample_model) sample_file 10
         [(7%nat, [x01])]) = [(7%nat, [x01])] /\
  snd (detect_events sample_decode (Some sample_model) sample_file None 1
         [(7%nat, [x01])]) = [(7%nat, [x01])].
Proof.
  apply (@handlers_restore_directory sample_decode (Some sample_model)
           sample_file 10 None 1 [(7%nat, [x01])]).
  exact sample_file_payload.
Defined.

Lemma missing_filename_refused_witness :
  classify_audio sample_decode (Some sample_model) nameless_file 10 []
  = (Raised (LockNHTTPException VALIDATION_MISSING_FIELD 400), []) /\
  detect_events sample_decode (Some sample_model) nameless_file None 500 []
  = (Raised (LockNHTTPException VALIDATION_MISSING_FIELD 400), []).
Proof.
  apply (@missing_filename_refused sample_decode (Some sample_model)
           nameless_file 10 None 500 []).
  reflexivity.
Defined.

Lemma undecodable_audio_refused_witness :
  classify_audio failing_decode None sample_file 10 []
  = (Raised (LockNHTTPException LISTEN_INVALID_AUDIO_FORMAT 400), []) /\
  detect_events failing_decode None sample_file None 500 []
  = (Raised (LockNHTTPException LISTEN_INVALID_AUDIO_FORMAT 400), []).
Proof.
  apply (@undecodable_audio_refused failing_decode None sample_file 10 None
           500 []).
  - exact sample_file_named.
  - exact sample_file_payload.
  - reflexivity.
Defined.

Lemma model_not_loaded_reported_witness :
  classify_audio sample_decode None sample_file 10 []
  = (Raised (LockNHTTPException LISTEN_MODEL_NOT_LOADED 503), []) /\
  detect_events sample_decode None sample_file None 500 []
  = (Raised (LockNHTTPException LISTEN_MODEL_NOT_LOADED 503), []).
Proof.
  apply (@model_not_loaded_reported sample_decode None sample_file 10 None
           500 [] (repeat 0%Q 64)).
  - exact sample_file_named.
  - exact sample_file_payload.
  - reflexivity.
  - reflexivity.
Defined.

Lemma classify_inference_failure_witness :
  classify_audio sample_decode (Some failing_model) sample_file 10 []
  = (Raised (LockNHTTPException LISTEN_CLASSIFICATION_FAILED 502), []).
Proof.
  apply (@classify_inference_failure sample_decode (Some failing_model)
           sample_file 10 [] (repeat 0%Q 64) failing_model).
  - exact sample_file_named.
  - exact sample_file_payload.
  - reflexivity.
  - reflexivity.
  - reflexivity.
Defined.

Lemma classify_audio_success_witness :
  exists sel,
    classify_audio sample_decode (Some sample_model) sample_file 1 []
    = (Ok (mkClassifyResponse
             (map (fun i => mkTagResult (nth i ["Speech"; "Music"]%string ""%string)
                                        (prob_at [6 # 10; 1 # 10] i)) sel)
             (duration_of (repeat 0%Q 64))), []) /\
    Forall (fun i => (i < 2)%nat /\
                     (tag_floor < prob_at [6 # 10; 1 # 10] i)%Q) sel /\
    StronglySorted (fun i j => (prob_at [6 # 10; 1 # 10] j
                                <= prob_at [6 # 10; 1 # 10] i)%Q) sel /\
    (0 < 1 -> List.length sel = 1%nat).
Proof.
  apply (@classify_audio_success sample_decode (Some sample_model)
           sample_file 1 [] (repeat 0%Q 64) sample_model [6 # 10; 1 # 10]%Q).
  - exact sample_file_named.
  - exact sample_file_payload.
  - reflexivity.
  - reflexivity.
  - reflexivity.
  - simpl. lia.
Defined.

Lemma except_clauses_ok (A : Type) (r : result A) (a : A) :
  except_clauses r = Ok a -> r = Ok a.
Proof. destruct r as [x|[c s|]]; simpl; congruence. Qed.

Lemma bind_ok (A B : Type) (r : result A) (k : A -> result B) (b : B) :
  bind r k = Ok b -> exists a, r = Ok a /\ k a = Ok b.
Proof.
  destruct r as [a|e]; simpl; [|discriminate]. intro H. now exists a.
Qed.

Lemma window_starts_short (n window_ms : Z) :
  0 < window_ms < 2 ^ 1018 -> n <= window_samples window_ms ->
  window_starts n window_ms = Ok [].
Proof.
  intros Hw Hn. rewrite window_starts_in_range by lia.
  pose proof (@hop_samples_pos window_ms ltac:(lia)) as H.
  unfold range, range_len.
  destruct (Z.eqb_spec (hop_samples window_ms) 0); [lia|].
  destruct (Z.ltb_spec 0 (hop_samples window_ms)); [|lia].
  destruct (Z.ltb_spec 0 (n - window_samples window_ms)); [lia|reflexivity].
Qed.

Lemma window_starts_overflow (n window_ms : Z) :
  2 ^ 1019 <= Z.abs window_ms ->
  window_starts n window_ms = Raised OtherException.
Proof.
  intro H. unfold window_starts.
  now rewrite true_divide_window_overflow.
Qed.

Section DetectMore.

Variable decode : list byte -> option (list Q).
Variable loaded : option AudioTagging.

(** The [try] block of [detect_events] once the audio is decoded and the
    model loaded. *)
Lemma detect_body_decoded (p : nat) (c : list byte) (w : World)
    (events : option (list string)) (window_ms : Z) (audio : list Q)
    (m : AudioTagging) :
  decode c = Some audio ->
  loaded = Some m ->
  detect_body decode loaded p events window_ms ((p, c) :: w)
  = (starts <- window_starts (Z.of_nat (List.length audio)) window_ms ;;
     detected_events <- scan_windows m audio window_ms starts [] ;;
     Ok (mkDetectResponse (dedup window_ms detected_events)
                          (duration_of audio))).
Proof.
  intros Hd Hm. unfold detect_body, get_model.
  now rewrite librosa_load_head, Hd, Hm.
Qed.

(** X14: the timeline of every successful detection is non-overlapping and
    made of genuine candidates: neighbours are strictly more than
    [window_ms] apart, by the subtraction of the loop and, for a window
    below [2^53] ms, as real numbers too; every event is strictly above 0.3
    and named by the table, and its time is the stamp, rounded as the loop
    rounds it, of a window start, a multiple of the hop that is not
    negative. *)
Theorem detect_events_timeline (file : UploadFile)
    (filter : option (list string)) (window_ms : Z) (w : World)
    (resp : DetectResponse)
    (Hok : fst (detect_events decode loaded file filter window_ms w) = Ok resp) :
  spaced window_ms (events resp) /\
  (Z.abs window_ms < 2 ^ 53 -> separated window_ms (events resp)) /\
  Forall (fun e => (event_threshold < confidence e)%Q /\
                   In (event e) (map snd SPORTS_SOUNDS) /\
                   exists k, 0 <= k /\
                     timestamp_ms e
                     = window_timestamp (k * hop_samples window_ms))
         (events resp).
Proof.
  destruct (no_filename file) eqn:Hn.
  { unfold detect_events in Hok. rewrite Hn in Hok. discriminate Hok. }
  destruct (content file) as [|b c] eqn:Ec.
  { unfold detect_events, NamedTemporaryFile in Hok.
    rewrite Hn, Ec in Hok. discriminate Hok. }
  rewrite detect_events_upload in Hok by (congruence || (rewrite Ec; discriminate)).
  cbn [fst] in Hok. apply except_clauses_ok in Hok.
  unfold detect_body in Hok.
  apply bind_ok in Hok. destruct Hok as [audio [_ Hok]].
  apply bind_ok in Hok. destruct Hok as [m [_ Hok]].
  apply bind_ok in Hok. destruct Hok as [starts [Hs Hok]].
  apply bind_ok in Hok. destruct Hok as [detected [Hscan Hok]].
  injection Hok as <-. cbn [events].
  apply window_starts_shape in Hs; [|lia]. destruct Hs as [Hsorted Hmult].
  apply (@scan_windows_inv _ _ _ _ _ _ Hsorted) in Hscan.
  destruct Hscan as [new [-> [Hord Hcand]]]. cbn [app].
  pose proof (dedup_spaced window_ms Hord) as Hsp.
  split; [exact Hsp|]. split.
  - intro Hw. now apply spaced_separated.
  - apply Forall_forall. intros e He.
    apply (proj1 (dedup_loop_incl window_ms new [])) in He. cbn [app] in He.
    rewrite Forall_forall in Hcand, Hmult.
    destruct (Hcand e He) as [[s [Hs Ht]] [Hc Hname]].
    split; [exact Hc|]. split; [exact Hname|].
    destruct (Hmult s Hs) as [k [Hk ->]]. now exists k.
Qed.

(** X15: [window_ms = 0] makes the hop zero, [range] refuses it, and the
    request ends as LISTEN_CLASSIFICATION_FAILED with status 502, whatever
    the clip is; the temporary file is removed. *)
Theorem detect_zero_window_fails (file : UploadFile)
    (events : option (list string)) (w : World) (audio : list Q)
    (m : AudioTagging)
    (Hn : no_filename file = false)
    (Hc : content file <> [])
    (Hd : decode (content file) = Some audio)
    (Hm : loaded = Some m) :
  detect_events decode loaded file events 0 w
  = (Raised (LockNHTTPException LISTEN_CLASSIFICATION_FAILED 502), w).
Proof.
  rewrite detect_events_upload by assumption.
  now rewrite (detect_body_decoded _ _ _ _ Hd Hm), window_starts_zero.
Qed.

(** X16: within the range of the doubles (below [2^1018] in magnitude), a
    negative [window_ms], or a clip no longer than one window, gives a
    successful response with an empty timeline and the duration of the
    clip; the model is never run, so even a model that would fail does not
    fail the request.  From [2^1019] on, in either sign, the division of
    line 312 overflows and the request ends as LISTEN_CLASSIFICATION_FAILED
    with status 502. *)
Theorem detect_no_window (file : UploadFile) (events : option (list string))
    (window_ms : Z) (w : World) (audio : list Q) (m : AudioTagging)
    (Hn : no_filename file = false)
    (Hc : content file <> [])
    (Hd : decode (content file) = Some audio)
    (Hm : loaded = Some m) :
  (- 2 ^ 1018 < window_ms < 0 \/
   (0 < window_ms < 2 ^ 1018 /\
    Z.of_nat (List.length audio) <= window_samples window_ms) ->
   detect_events decode loaded file events window_ms w
   = (Ok (mkDetectResponse [] (duration_of audio)), w)) /\
  (2 ^ 1019 <= Z.abs window_ms ->
   detect_events decode loaded file events window_ms w
   = (Raised (LockNHTTPException LISTEN_CLASSIFICATION_FAILED 502), w)).
Proof.
  rewrite detect_events_upload by assumption.
  rewrite (detect_body_decoded _ _ _ _ Hd Hm).
  split.
  - intros [Hneg|[Hpos Hlen]].
    + now rewrite window_starts_negative by lia.
    + now rewrite window_starts_short.
  - intro Hbig. now rewrite window_starts_overflow.
Qed.

(** X17: a failure of the model on any window, after windows that went
    well, ends the whole request as LISTEN_CLASSIFICATION_FAILED with status
    502: the events of the earlier windows are not returned. *)
Theorem detect_inference_failure (file : UploadFile)
    (events : option (list string)) (window_ms : Z) (w : World)
    (audio : list Q) (m : AudioTagging) (starts1 starts2 : list Z) (s : Z)
    (Hn : no_filename file = false)
    (Hc : content file <> [])
    (Hd : decode (content file) = Some audio)
    (Hm : loaded = Some m)
    (Hs : window_starts (Z.of_nat (List.length audio)) window_ms
          = Ok (starts1 ++ s :: starts2))
    (Hwell : forall s1, In s1 starts1 ->
       exists probs,
         inference m (slice audio s1 (s1 + window_samples window_ms))
         = Ok probs /\
         (List.length probs <= List.length (labels m))%nat)
    (Hfail : inference m (slice audio s (s + window_samples window_ms))
             = Raised OtherException) :
  detect_events decode loaded file events window_ms w
  = (Raised (LockNHTTPException LISTEN_CLASSIFICATION_FAILED 502), w).
Proof.
  rewrite detect_events_upload by assumption.
  rewrite (detect_body_decoded _ _ _ _ Hd Hm), Hs. cbn [bind].
  now rewrite (@scan_windows_failure m audio window_ms starts1 starts2 s
                 OtherException [] Hfail Hwell).
Qed.

(** X18: with a model that fails only with exceptions of its own, neither
    handler lets any other exception out: the outcome is a response or one
    of VALIDATION_MISSING_FIELD 400, LISTEN_INVALID_AUDIO_FORMAT 400,
    LISTEN_MODEL_NOT_LOADED 503 and LISTEN_CLASSIFICATION_FAILED 502. *)
Theorem handlers_raise_service_errors (file : UploadFile) (top_k : Z)
    (events : option (list string)) (window_ms : Z) (w : World)
    (Hplain : forall m, loaded = Some m -> plain_failures m) :
  service_outcome (fst (classify_audio decode loaded file top_k w)) /\
  service_outcome (fst (detect_events decode loaded file events window_ms w)).
Proof.
  destruct (no_filename file) eqn:Hn.
  { unfold classify_audio, detect_events. rewrite Hn.
    split; simpl; unfold service_error; tauto. }
  destruct (content file) as [|b c] eqn:Ec.
  { unfold classify_audio, detect_events, NamedTemporaryFile. rewrite Hn, Ec.
    split; simpl; unfold service_error; tauto. }
  assert (Hc : content file <> []) by (rewrite Ec; discriminate).
  rewrite classify_audio_upload, detect_events_upload by assumption.
  cbn [fst]. split; apply except_clauses_outcome; intros e E.
  - unfold classify_body, get_model in E. rewrite librosa_load_head in E.
    destruct (decode (content file)) as [audio|]; cbn [except_as bind] in E;
      [|injection E as <-; unfold service_error; tauto].
    destruct loaded as [m|] eqn:Hm; cbn [bind] in E;
      [|injection E as <-; unfold service_error; tauto].
    destruct (inference m audio) as [probs|e'] eqn:Ei; cbn [bind] in E;
      [|injection E as <-; left; exact (Hplain m eq_refl _ _ Ei)].
    destruct (classify_tags _ _ _) eqn:Et; cbn [bind] in E; [discriminate|].
    injection E as <-. left. exact (classify_tags_raises _ _ _ Et).
  - unfold detect_body, get_model in E. rewrite librosa_load_head in E.
    destruct (decode (content file)) as [audio|]; cbn [except_as bind] in E;
      [|injection E as <-; unfold service_error; tauto].
    destruct loaded as [m|] eqn:Hm; cbn [bind] in E;
      [|injection E as <-; unfold service_error; tauto].
    destruct (window_starts _ _) as [starts|e'] eqn:Es; cbn [bind] in E;
      [|injection E as <-; left; exact (window_starts_raises _ _ Es)].
    destruct (scan_windows _ _ _ _ _) eqn:Esc; cbn [bind] in E; [discriminate|].
    injection E as <-. left.
    exact (@scan_windows_raises m _ _ _ _ (Hplain m eq_refl) _ Esc).
Qed.

End DetectMore.

Lemma detect_events_timeline_witness :
  spaced 1 [mkEventDetection "voice" (window_timestamp 0) (6 # 10)] /\
  separated 1 [mkEventDetection "voice" (window_timestamp 0) (6 # 10)] /\
  Forall (fun e => (event_threshold < confidence e)%Q /\
                   In (event e) (map snd SPORTS_SOUNDS) /\
                   exists k, 0 <= k /\
                     timestamp_ms e = window_timestamp (k * hop_samples 1))
         [mkEventDetection "voice" (window_timestamp 0) (6 # 10)].
Proof.
  destruct (@detect_events_timeline sample_decode (Some sample_model)
              sample_file None 1 []
              (mkDetectResponse
                 [mkEventDetection "voice" (window_timestamp 0) (6 # 10)]
                 (duration_of (repeat 0%Q 64)))
              eq_refl) as [S [E F]].
  split; [exact S|]. split; [apply E; reflexivity|exact F].
Defined.

Lemma detect_zero_window_fails_witness :
  detect_events sample_decode (Some sample_model) sample_file None 0 []
  = (Raised (LockNHTTPException LISTEN_CLASSIFICATION_FAILED 502), []).
Proof.
  apply (@detect_zero_window_fails sample_decode (Some sample_model)
           sample_file None [] (repeat 0%Q 64) sample_model).
  - exact sample_file_named.
  - exact sample_file_payload.
  - reflexivity.
  - reflexivity.
Defined.

Lemma detect_no_window_witness :
  detect_events sample_decode (Some failing_model) sample_file None 500 []
  = (Ok (mkDetectResponse [] (duration_of (repeat 0%Q 64))), []) /\
  detect_events sample_decode (Some sample_model) sample_file None (10 ^ 400) []
  = (Raised (LockNHTTPException LISTEN_CLASSIFICATION_FAILED 502), []).
Proof.
  split.
  - refine (proj1 (@detect_no_window sample_decode (Some failing_model)
                     sample_file None 500 [] (repeat 0%Q 64) failing_model
                     sample_file_named sample_file_payload eq_refl eq_refl) _).
    right. split; [split; [lia|vm_compute; reflexivity]|].
    vm_compute. discriminate.
  - refine (proj2 (@detect_no_window sample_decode (Some sample_model)
                     sample_file None (10 ^ 400) [] (repeat 0%Q 64)
                     sample_model
                     sample_file_named sample_file_payload eq_refl eq_refl) _).
    vm_compute. discriminate.
Defined.

Lemma detect_inference_failure_witness :
  detect_events ramp_decode (Some fussy_model) sample_file None 1 []
  = (Raised (LockNHTTPException LISTEN_CLASSIFICATION_FAILED 502), []).
Proof.
  apply (@detect_inference_failure ramp_decode (Some fussy_model) sample_file
           None 1 [] (map (fun k => inject_Z (Z.of_nat k)) (seq 0 64))
           fussy_model [0] [] 16).
  - exact sample_file_named.
  - exact sample_file_payload.
  - reflexivity.
  - reflexivity.
  - reflexivity.
  - intros s1 [<-|[]]. exists [6 # 10; 1 # 10]%Q.
    split; [reflexivity|]. simpl. lia.
  - reflexivity.
Defined.

Lemma handlers_raise_service_errors_witness :
  service_outcome
    (fst (classify_audio sample_decode (Some sample_model) sample_file 10 [])) /\
  service_outcome
    (fst (detect_events sample_decode (Some sample_model) sample_file None 0 [])).
Proof.
  apply (@handlers_raise_service_errors sample_decode (Some sample_model)
           sample_file 10 None 0 []).
  intros m E. injection E as <-. intros a e H. discriminate H.
Defined.

(** ** Top-k selection, continued *)

Lemma StronglySorted_across (A : Type) (R : A -> A -> Prop) (l1 l2 : list A)
    (a b : A) :
  StronglySorted R (l1 ++ l2) -> In a l1 -> In b l2 -> R a b.
Proof.
  induction l1 as [|x l1 IH]; simpl; intros S Ha Hb; [contradiction|].
  apply StronglySorted_inv in S. destruct S as [S F].
  destruct Ha as [->|Ha]; [|exact (IH S Ha Hb)].
  rewrite Forall_forall in F. apply F. apply in_or_app. now right.
Qed.

Lemma mapM_ok_all (A B : Type) (f : A -> result B) (l : list A)
    (ys : list B) (x : A) :
  mapM f l = Ok ys -> In x l -> exists y, f x = Ok y.
Proof.
  revert ys. induction l as [|a l IH]; intros ys E Hx; [contradiction|].
  simpl in E. destruct (f a) as [y|] eqn:Ea; simpl in E; [|discriminate].
  destruct (mapM f l) as [ys'|]; simpl in E; [|discriminate].
  destruct Hx as [<-|Hx]; [now exists y|exact (IH _ eq_refl Hx)].
Qed.

Lemma filter_length_pos (A : Type) (f : A -> bool) (l : list A) (x : A) :
  In x l -> f x = true -> (1 <= List.length (filter f l))%nat.
Proof.
  intros Hx Hf. assert (H : In x (filter f l)) by now apply filter_In.
  destruct (filter f l); [contradiction|simpl; lia].
Qed.

Lemma NoDup_skipn (A : Type) (n : nat) (l : list A) :
  NoDup l -> NoDup (skipn n l).
Proof.
  revert l. induction n as [|n IH]; intros l N; [exact N|].
  destruct l as [|a l]; [exact N|]. simpl. apply IH.
  now apply NoDup_cons_iff in N.
Qed.

(** X19: a [top_k] of zero, or one at least the size of the vocabulary,
    selects among the whole vocabulary: the tag list is the one for
    [top_k = len(probs)]. *)
Theorem classify_tags_whole_vocabulary (labels : list string)
    (probs : list Q) (top_k : Z)
    (Hk : top_k = 0 \/ Z.of_nat (List.length probs) <= top_k) :
  classify_tags labels probs top_k
  = classify_tags labels probs (Z.of_nat (List.length probs)).
Proof.
  unfold classify_tags. f_equal.
  destruct Hk as [->|Hk].
  - apply selected_indices_zero.
  - now apply selected_indices_clamped.
Qed.

Lemma classify_tags_whole_vocabulary_witness :
  classify_tags ["A"; "B"; "C"]%string [9 # 10; 1 # 100; 4 # 10]%Q 0
  = classify_tags ["A"; "B"; "C"]%string [9 # 10; 1 # 100; 4 # 10]%Q 3%Z.
Proof.
  apply (@classify_tags_whole_vocabulary ["A"; "B"; "C"]%string
           [9 # 10; 1 # 100; 4 # 10]%Q 0).
  now left.
Defined.

(** X20: a negative [top_k] does not give an empty tag list: the slice drops
    the [-top_k] least probable entries, and the tag list has
    [min(len(probs) + top_k, count(p > 0.05))] entries, none when
    [top_k <= -len(probs)]. *)
Theorem classify_tags_negative_top_k (labels : list string) (probs : list Q)
    (top_k : Z)
    (Hk : top_k < 0)
    (Hlen : (List.length probs <= List.length labels)%nat) :
  exists tags,
    classify_tags labels probs top_k = Ok tags /\
    List.length tags
    = Nat.min (List.length probs - Z.to_nat (- top_k))
              (count_above_floor probs).
Proof.
  eexists. split; [now apply classify_tags_ok|].
  rewrite length_map. unfold selected_indices, top_indices, slice_from.
  rewrite filter_rev, length_rev.
  rewrite (@sorted_suffix_count nat (index_order probs)
             (fun i => Qgtb (prob_at probs i) tag_floor) (argsort probs)
             (@index_order_above_floor probs) (argsort_sorted probs)).
  rewrite argsort_length, count_indices_above_floor.
  unfold slice_bound. destruct (Z.ltb_spec (- top_k) 0); lia.
Qed.

Lemma classify_tags_negative_top_k_witness :
  exists tags,
    classify_tags ["A"; "B"; "C"]%string [9 # 10; 5 # 10; 4 # 10]%Q (-1)
    = Ok tags /\
    List.length tags = 2%nat.
Proof.
  apply (@classify_tags_negative_top_k ["A"; "B"; "C"]%string
           [9 # 10; 5 # 10; 4 # 10]%Q (-1)).
  - lia.
  - simpl. lia.
Defined.

(** X21: no vocabulary entry is reported twice, and every reported index is
    an index of the probability vector. *)
Theorem selected_indices_distinct (probs : list Q) (top_k : Z) :
  NoDup (selected_indices probs top_k) /\
  Forall (fun i => (i < List.length probs)%nat) (selected_indices probs top_k).
Proof.
  split.
  - unfold selected_indices, top_indices, slice_from.
    apply NoDup_filter, NoDup_rev, NoDup_skipn.
    apply (Permutation_NoDup (Permutation_sym (argsort_perm probs))).
    apply seq_NoDup.
  - apply Forall_forall. intros i. apply selected_in_range.
Qed.

(** X22: the slice takes the most probable entries: an index left out of
    [top_indices] never has a higher probability than one taken. *)
Theorem top_indices_are_largest (probs : list Q) (top_k : Z) (i j : nat)
    (Hi : In i (top_indices probs top_k))
    (Hj : (j < List.length probs)%nat)
    (Hout : ~ In j (top_indices probs top_k)) :
  (prob_at probs j <= prob_at probs i)%Q.
Proof.
  unfold top_indices, slice_from in Hi, Hout.
  set (n := Z.to_nat (slice_bound (Z.of_nat (List.length (argsort probs)))
                        (- top_k))) in *.
  apply in_rev in Hi.
  assert (Hj' : In j (argsort probs)).
  { apply (Permutation_in _ (Permutation_sym (argsort_perm probs))).
    apply in_seq. lia. }
  rewrite <- (firstn_skipn n (argsort probs)) in Hj'.
  apply in_app_or in Hj'. destruct Hj' as [Hj'|Hj'].
  - pose proof (argsort_sorted probs) as S.
    rewrite <- (firstn_skipn n (argsort probs)) in S.
    destruct (StronglySorted_across _ _ _ _ S Hj' Hi) as [H|[H _]]; lra.
  - exfalso. apply Hout. now apply in_rev in Hj'.
Qed.

Lemma top_indices_are_largest_witness :
  (prob_at [9 # 10; 1 # 10; 4 # 10] 1 <= prob_at [9 # 10; 1 # 10; 4 # 10] 2)%Q.
Proof.
  apply (@top_indices_are_largest [9 # 10; 1 # 10; 4 # 10]%Q 2 2%nat 1%nat).
  - simpl. tauto.
  - simpl. lia.
  - simpl. intros [H|[H|[]]]; discriminate H.
Defined.

(** X23: when a selected entry has no label, because the vocabulary is
    shorter than the probability vector, the tag list is not built: the
    lookup raises IndexError. *)
Theorem classify_tags_missing_label (labels : list string) (probs : list Q)
    (top_k : Z) (i : nat)
    (Hi : In i (selected_indices probs top_k))
    (Hshort : (List.length labels <= i)%nat) :
  classify_tags labels probs top_k = Raised OtherException.
Proof.
  destruct (classify_tags labels probs top_k) as [ts|e] eqn:E.
  - exfalso. unfold classify_tags in E.
    destruct (mapM_ok_all _ _ _ E Hi) as [y Hy].
    unfold getitem in Hy.
    apply nth_error_None in Hshort. rewrite Hshort in Hy. discriminate Hy.
  - f_equal. exact (classify_tags_raises _ _ _ E).
Qed.

Lemma classify_tags_missing_label_witness :
  classify_tags ["A"]%string [9 # 10; 5 # 10]%Q 10 = Raised OtherException.
Proof.
  apply (@classify_tags_missing_label ["A"]%string [9 # 10; 5 # 10]%Q 10 1%nat).
  - simpl. tauto.
  - simpl. lia.
Defined.

(** X24: when no more than [top_k] entries are strictly above 0.05, all of
    them are reported: truncation removes nothing that passes the floor. *)
Theorem selected_indices_complete (probs : list Q) (top_k : Z) (i : nat)
    (Hk : 0 < top_k)
    (Hcount : Z.of_nat (count_above_floor probs) <= top_k)
    (Hi : (i < List.length probs)%nat)
    (Hp : (tag_floor < prob_at probs i)%Q) :
  In i (selected_indices probs top_k).
Proof.
  pose proof (selected_length probs Hk) as L.
  unfold selected_indices, top_indices, slice_from in *.
  set (good := fun i => Qgtb (prob_at probs i) tag_floor) in *.
  set (n := Z.to_nat (slice_bound (Z.of_nat (List.length (argsort probs)))
                        (- top_k))) in *.
  rewrite filter_rev, length_rev in L.
  rewrite filter_rev. apply -> in_rev. apply filter_In.
  assert (Hg : good i = true) by now apply Qgtb_true.
  split; [|exact Hg].
  assert (Hin : In i (argsort probs)).
  { apply (Permutation_in _ (Permutation_sym (argsort_perm probs))).
    apply in_seq. lia. }
  rewrite <- (firstn_skipn n (argsort probs)) in Hin.
  apply in_app_or in Hin. destruct Hin as [Hin|Hin]; [exfalso|exact Hin].
  pose proof (count_indices_above_floor probs) as C.
  fold good in C.
  rewrite <- (firstn_skipn n (argsort probs)), filter_app, length_app in C.
  pose proof (filter_length_pos good _ _ Hin Hg). lia.
Qed.

Lemma selected_indices_complete_witness :
  In 2%nat (selected_indices [9 # 10; 1 # 100; 4 # 10]%Q 2).
Proof.
  apply (@selected_indices_complete [9 # 10; 1 # 100; 4 # 10]%Q 2 2%nat).
  - lia.
  - simpl. lia.
  - simpl. lia.
  - reflexivity.
Defined.

(** ** The model singleton *)

(** X25: the model is loaded once: after a call of [get_model] that
    succeeded, every later call returns the same model without loading, even
    when loading would now fail; a failed load is not remembered, so the
    next call tries again. *)
Theorem get_model_global_caches (load1 load2 : option AudioTagging)
    (st st' : option AudioTagging) (r : result AudioTagging)
    (Hcall : get_model_global load1 st = (r, st')) :
  (forall m, r = Ok m -> get_model_global load2 st' = (Ok m, st')) /\
  (forall e, r = Raised e ->
     e = LockNHTTPException LISTEN_MODEL_NOT_LOADED 503 /\
     st' = None /\
     forall m, get_model_global (Some m) st' = (Ok m, Some m)).
Proof.
  unfold get_model_global in Hcall.
  destruct st as [m0|]; [|destruct load1 as [m1|]];
    injection Hcall as <- <-; split;
    try (intros m E; injection E as <-; reflexivity);
    try (intros e E; discriminate E).
  intros e E. injection E as <-. repeat split.
Qed.

Lemma get_model_global_caches_witness :
  (forall m, Ok sample_model = Ok m ->
     get_model_global None (Some sample_model) = (Ok m, Some sample_model)) /\
  (forall e, Ok sample_model = Raised e ->
     e = LockNHTTPException LISTEN_MODEL_NOT_LOADED 503 /\
     Some sample_model = None /\
     forall m, get_model_global (Some m) (Some sample_model) = (Ok m, Some m)).
Proof.
  apply (@get_model_global_caches (Some sample_model) None None
           (Some sample_model) (Ok sample_model)).
  reflexivity.
Defined.

(** ** The transcription service *)

Section TranscribeFacts.

Variable strip : string -> string.
Variable model : option Whisper.WhisperModel.
Variable start_time end_time : Q.

Local Abbreviation transcribe :=
  (Whisper.transcribe strip model start_time end_time).

(** The dict made of one segment. *)
Local Abbreviation dict_of :=
  (fun s => Whisper.mkSegmentDict (Whisper.seg_id s) (Whisper.seg_start s)
              (Whisper.seg_end s) (strip (Whisper.seg_text s))
              (Whisper.seg_avg_logprob s)).

Lemma collect_maps (segs : list Whisper.Segment) :
  forall segment_list full_text,
    Whisper.collect strip segs segment_list full_text
    = (segment_list ++ map dict_of segs,
       full_text ++ map (fun s => strip (Whisper.seg_text s)) segs).
Proof.
  induction segs as [|s segs IH]; intros sl ft; simpl.
  - now rewrite !app_nil_r.
  - rewrite IH, <- !app_assoc. reflexivity.
Qed.

Lemma transcribe_upload (m : Whisper.WhisperModel) (file : UploadFile)
    (language response_format timestamp_granularities : Whisper.FormValue)
    (w : World) :
  model = Some m ->
  no_filename file = false ->
  content file <> [] ->
  transcribe file language response_format timestamp_granularities w
  = (match Whisper.transcribe_body strip start_time end_time m (fresh_path w)
             language response_format timestamp_granularities
             ((fresh_path w, content file) :: w) with
     | Some r => Whisper.Returned r
     | None =>
         Whisper.LockNHTTPException Whisper.LISTEN_TRANSCRIPTION_FAILED 502
     end, w).
Proof.
  intros Hm Hn Hc. unfold Whisper.transcribe, NamedTemporaryFile.
  rewrite Hm, Hn.
  destruct (content file) as [|b c] eqn:Ec; [congruence|].
  cbn [List.length Nat.eqb].
  now rewrite finally_unlink_restores, write_fresh.
Qed.

Lemma transcribe_body_head (m : Whisper.WhisperModel) (p : nat)
    (c : list byte)
    (language response_format timestamp_granularities : Whisper.FormValue)
    (w : World) :
  Whisper.transcribe_body strip start_time end_time m p language
    response_format timestamp_granularities ((p, c) :: w)
  = match Whisper.transcribe_file m c language
            (Whisper.form_eqb timestamp_granularities "word") with
    | None => None
    | Some (segs, info_language) =>
        let full_text := map (fun s => strip (Whisper.seg_text s)) segs in
        if Whisper.form_eqb response_format "text"
        then Some (Whisper.PlainText (String.concat " " full_text))
        else Some (Whisper.Json
                     (Whisper.mkTranscriptionResponse
                        (String.concat " " full_text) info_language
                        (end_time - start_time)%Q (map dict_of segs)))
    end.
Proof.
  unfold Whisper.transcribe_body. cbn [read_path]. rewrite Nat.eqb_refl.
  destruct (Whisper.transcribe_file m c language _) as [[segs lang]|];
    [|reflexivity].
  now rewrite collect_maps.
Qed.

(** X26: with a payload that is not empty, [transcribe] leaves the temporary
    directory exactly as it found it, whatever the outcome. *)
Theorem transcribe_restores_directory (file : UploadFile)
    (language response_format timestamp_granularities : Whisper.FormValue)
    (w : World)
    (Hc : content file <> []) :
  snd (transcribe file language response_format timestamp_granularities w) = w.
Proof.
  unfold Whisper.transcribe, NamedTemporaryFile.
  destruct model as [m|]; [|reflexivity].
  destruct (no_filename file); [reflexivity|].
  destruct (content file) as [|b c]; [congruence|].
  cbn [List.length Nat.eqb snd]. apply finally_unlink_restores.
Qed.

(** X27: with the model loaded, an upload with a name and an empty payload
    is refused with LISTEN_INVALID_AUDIO_FORMAT and status 400, and the
    empty temporary file made for it stays in the directory. *)
Theorem transcribe_empty_payload_leaks (m : Whisper.WhisperModel)
    (file : UploadFile)
    (language response_format timestamp_granularities : Whisper.FormValue)
    (w : World)
    (Hm : model = Some m)
    (Hn : no_filename file = false)
    (Hc : content file = []) :
  transcribe file language response_format timestamp_granularities w
  = (Whisper.LockNHTTPException Whisper.LISTEN_INVALID_AUDIO_FORMAT 400,
     (fresh_path w, []) :: w).
Proof.
  unfold Whisper.transcribe, NamedTemporaryFile. now rewrite Hm, Hn, Hc.
Qed.

(** X28: when the model fails on the file, at the call or while its
    segments are read, [transcribe] answers LISTEN_TRANSCRIPTION_FAILED with
    status 502 and removes the temporary file. *)
Theorem transcribe_failure (m : Whisper.WhisperModel) (file : UploadFile)
    (language response_format timestamp_granularities : Whisper.FormValue)
    (w : World)
    (Hm : model = Some m)
    (Hn : no_filename file = false)
    (Hc : content file <> [])
    (Hfail : Whisper.transcribe_file m (content file) language
               (Whisper.form_eqb timestamp_granularities "word") = None) :
  transcribe file language response_format timestamp_granularities w
  = (Whisper.LockNHTTPException Whisper.LISTEN_TRANSCRIPTION_FAILED 502, w).
Proof.
  rewrite (@transcribe_upload m file language response_format
             timestamp_granularities w Hm Hn Hc).
  now rewrite transcribe_body_head, Hfail.
Qed.

(** X29: in every JSON response the text is the texts of its segments
    joined by single spaces, and the segments are those of the model on the
    uploaded bytes, in order, each with its text stripped and its average
    log-probability as confidence; the duration is the time elapsed. *)
Theorem transcribe_response_consistent (file : UploadFile)
    (language response_format timestamp_granularities : Whisper.FormValue)
    (w : World) (resp : Whisper.TranscriptionResponse)
    (Hok : fst (transcribe file language response_format
                  timestamp_granularities w)
           = Whisper.Returned (Whisper.Json resp)) :
  Whisper.text resp
  = String.concat " " (map Whisper.d_text (Whisper.segments resp)) /\
  Whisper.duration resp = (end_time - start_time)%Q /\
  exists m segs,
    model = Some m /\
    Whisper.transcribe_file m (content file) language
      (Whisper.form_eqb timestamp_granularities "word")
    = Some (segs, Whisper.language resp) /\
    Whisper.segments resp = map dict_of segs.
Proof.
  assert (Hcase : model = None \/ exists m, model = Some m)
    by (destruct model as [m|]; [right; now exists m|now left]).
  destruct Hcase as [Hm|[m Hm]].
  { unfold Whisper.transcribe in Hok. rewrite Hm in Hok. discriminate Hok. }
  destruct (no_filename file) eqn:Hn.
  { unfold Whisper.transcribe in Hok. rewrite Hm, Hn in Hok. discriminate Hok. }
  destruct (content file) as [|b c] eqn:Ec.
  { unfold Whisper.transcribe, NamedTemporaryFile in Hok.
    rewrite Hm, Hn, Ec in Hok. discriminate Hok. }
  assert (Hc : content file <> []) by (rewrite Ec; discriminate).
  rewrite (@transcribe_upload m file language response_format
             timestamp_granularities w Hm Hn Hc) in Hok.
  cbn [fst] in Hok.
  rewrite transcribe_body_head in Hok. rewrite Ec in Hok.
  destruct (Whisper.transcribe_file m (b :: c) language _)
    as [[segs lang]|] eqn:Et; [|discriminate Hok].
  cbv zeta in Hok.
  destruct (Whisper.form_eqb response_format "text"); [discriminate Hok|].
  injection Hok as <-. cbn.
  split; [now rewrite map_map|]. split; [reflexivity|].
  exists m, segs. split; [exact Hm|]. split; [exact Et|reflexivity].
Qed.

(** X30: [transcribe_simple] passes the [Form] defaults themselves, which
    equal neither "text" nor "word": it gives exactly what [transcribe]
    gives for the format "json" and the granularity "segment", and never a
    plain string. *)
Theorem transcribe_simple_is_json (file : UploadFile)
    (language : Whisper.FormValue) (w : World) :
  Whisper.transcribe_simple strip model start_time end_time file language w
  = transcribe file language (Whisper.FormStr "json")
      (Whisper.FormStr "segment") w /\
  forall s,
    fst (Whisper.transcribe_simple strip model start_time end_time file
           language w)
    <> Whisper.Returned (Whisper.PlainText s).
Proof.
  split; [reflexivity|].
  intros s H. unfold Whisper.transcribe_simple, Whisper.transcribe in H.
  destruct model as [m|]; [|discriminate H].
  destruct (no_filename file); [discriminate H|].
  unfold NamedTemporaryFile in H.
  destruct (Nat.eqb _ 0); [discriminate H|].
  cbn [fst] in H. unfold Whisper.transcribe_body in H.
  destruct (read_path _ _); [|discriminate H].
  destruct (Whisper.transcribe_file _ _ _ _) as [[segs lang]|];
    [|discriminate H].
  destruct (Whisper.collect _ _ _ _). cbn in H. discriminate H.
Qed.

End TranscribeFacts.

Lemma transcribe_restores_directory_witness :
  snd (Whisper.transcribe (fun s => s) (Some Whisper.two_segments) 0 2
         sample_file Whisper.FormNone (Whisper.FormStr "json")
         (Whisper.FormStr "segment") [(7%nat, [x01])])
  = [(7%nat, [x01])].
Proof.
  apply (@transcribe_restores_directory (fun s => s)
           (Some Whisper.two_segments) 0 2 sample_file Whisper.FormNone
           (Whisper.FormStr "json") (Whisper.FormStr "segment")
           [(7%nat, [x01])]).
  exact sample_file_payload.
Defined.

Lemma transcribe_empty_payload_leaks_witness :
  Whisper.transcribe (fun s => s) (Some Whisper.two_segments) 0 2
    (mkUploadFile (Some "clip.wav"%string) []) Whisper.FormNone
    (Whisper.FormStr "json") (Whisper.FormStr "segment") []
  = (Whisper.LockNHTTPException Whisper.LISTEN_INVALID_AUDIO_FORMAT 400,
     [(1%nat, [])]).
Proof.
  apply (@transcribe_empty_payload_leaks (fun s => s)
           (Some Whisper.two_segments) 0 2 Whisper.two_segments
           (mkUploadFile (Some "clip.wav"%string) []) Whisper.FormNone
           (Whisper.FormStr "json") (Whisper.FormStr "segment") []).
  - reflexivity.
  - reflexivity.
  - reflexivity.
Defined.

Lemma transcribe_failure_witness :
  Whisper.transcribe (fun s => s) (Some Whisper.broken) 0 2 sample_file
    Whisper.FormNone (Whisper.FormStr "json") (Whisper.FormStr "segment") []
  = (Whisper.LockNHTTPException Whisper.LISTEN_TRANSCRIPTION_FAILED 502, []).
Proof.
  apply (@transcribe_failure (fun s => s) (Some Whisper.broken) 0 2
           Whisper.broken sample_file Whisper.FormNone
           (Whisper.FormStr "json") (Whisper.FormStr "segment") []).
  - reflexivity.
  - exact sample_file_named.
  - exact sample_file_payload.
  - reflexivity.
Defined.

Lemma transcribe_response_consistent_witness :
  " hello  world "%string
  = String.concat " " [" hello "; "world "]%string /\
  (2 - 0)%Q = (2 - 0)%Q /\
  exists m segs,
    Some Whisper.two_segments = Some m /\
    Whisper.transcribe_file m (content sample_file) Whisper.FormNone
      (Whisper.form_eqb (Whisper.FormStr "segment") "word")
    = Some (segs, "en"%string) /\
    [Whisper.mkSegmentDict 0 0 1 " hello " (-1 # 10);
     Whisper.mkSegmentDict 1 1 2 "world " (-2 # 10)]
    = map (fun s => Whisper.mkSegmentDict (Whisper.seg_id s)
                      (Whisper.seg_start s) (Whisper.seg_end s)
                      (Whisper.seg_text s) (Whisper.seg_avg_logprob s)) segs.
Proof.
  apply (@transcribe_response_consistent (fun s => s)
           (Some Whisper.two_segments) 0 2 sample_file Whisper.FormNone
           (Whisper.FormStr "json") (Whisper.FormStr "segment") []
           (Whisper.mkTranscriptionResponse " hello  world " "en" (2 - 0)
              [Whisper.mkSegmentDict 0 0 1 " hello " (-1 # 10);
               Whisper.mkSegmentDict 1 1 2 "world " (-2 # 10)])).
  reflexivity.
Defined.
